(** * export/mapnik/render.py: layer compositing of the printable map

    A shallow embedding of [render.py]: the style accessor
    ([StyleParser]), the drawing layers ([MapnikLayer], [CustomMapLayer],
    [TileLayer], [AreaLayer], [CopyrightLayer], [QRCodeLayer]) and the
    compositor ([MapnikRenderer.render]).

    Conventions of the embedding.
    - A Python number is a rational ([Q]), kept in lowest terms ([Qred]) so
      that equal numbers are equal terms.
    - The arithmetic of floats is that of binary64 doubles: the exact
      result rounded to the nearest double, ties to even
      ([Float64.round]).  [StyleParser]'s unit conversions,
      [TileLayer.draw] and the map size of [MapnikRenderer.render] compute
      with it: each truncates a computed product, and there the rounding
      decides the pixel.  Overflow to infinity is not part of
      [Float64.round]; what is stated of these computations is stated for
      magnitudes far inside the range of doubles.
    - The remaining arithmetic is exact ([Py.mul], [Py.sub], [Py.div]): the
      ratio that [_get_sizes] compares with 1, and the anchors of
      [CopyrightLayer] and [QRCodeLayer].
    - The zoom of a style is an int or a float as written in styles.json
      ([Py.number]): [1 / zoom] is the floor division of Python 2 on an
      int.  The other numbers of a style are taken as the doubles of
      their values; the program computes the same with both below 2^53.
    - [int(v)] on a number truncates toward zero ([Z.quot]).
    - A Python exception is a value of [exn]; fallible code returns
      [result].
    - The cairo context shared by all layers is observed through the
      sequence of calls made on it ([call]); [M] is the monad of code that
      makes such calls and may raise.  An exception keeps the calls made
      before it, as the context object keeps what was done to it.
    - mapnik, the tile loader, globalmaptiles and PNG decoding are
      collaborators outside the file; they are fields of [Env]. *)

From Stdlib Require Import ZArith QArith Qround Qabs Qpower List String Ascii Bool Lia Lqa.
From Stdlib Require DecimalString DecimalZ.
Import ListNotations.

Local Open Scope Q_scope.

(** ** Python runtime *)

Module Py.

Inductive exn : Type :=
| IndexError
| ValueError
| TypeError
| ZeroDivisionError
| AttributeError
| CairoError.

Definition result (A : Type) : Type := (exn + A)%type.

Definition ok {A : Type} (a : A) : result A := inr a.
Definition throw {A : Type} (e : exn) : result A := inl e.

Definition rbind {A B : Type} (r : result A) (f : A -> result B) : result B :=
  match r with
  | inl e => inl e
  | inr a => f a
  end.

Notation "x <~ r ;; k" := (rbind r (fun x => k))
  (at level 61, r at next level, right associativity).

(** [for a in l: out.append(f(a))] *)
Fixpoint collect {A B : Type} (f : A -> result B) (l : list A) : result (list B) :=
  match l with
  | [] => ok []
  | a :: l' => b <~ f a ;; bs <~ collect f l' ;; ok (b :: bs)
  end.

(** A number or [None]. *)
Definition num : Type := option Q.

(** A numeric operand: [None] in arithmetic raises [TypeError]. *)
Definition as_num (v : num) : result Q :=
  match v with
  | Some q => ok q
  | None => throw TypeError
  end.

(** Exact arithmetic. *)
Definition mul (a b : Q) : Q := Qred (a * b).
Definition sub (a b : Q) : Q := Qred (a - b).

(** [a / b], exact, for a float [b]. *)
Definition div (a b : Q) : result Q :=
  if Qeq_bool b 0 then throw ZeroDivisionError else ok (Qred (a / b)).

(** A number as json.loads gives it: [2] is an int, [2.0] a float. *)
Inductive number : Type :=
| Int (z : Z)
| Float (q : Q).

Definition value (n : number) : Q :=
  match n with
  | Int z => inject_Z z
  | Float q => q
  end.

(** [int(v)] for a number [v]. *)
Definition int (v : Q) : Z := Z.quot (Qnum v) (Zpos (Qden v)).

(** [l[i]] *)
Definition getitem {A : Type} (l : list A) (i : nat) : result A :=
  match nth_error l i with
  | Some a => ok a
  | None => throw IndexError
  end.

(** [l.pop()]: removes and returns the last element. *)
Definition pop {A : Type} (l : list A) : result (A * list A) :=
  match rev l with
  | [] => throw IndexError
  | a :: _ => ok (a, removelast l)
  end.

(** [s.split(sep)] for a one-character separator. *)
Fixpoint split (sep : ascii) (s : string) : list string :=
  match s with
  | EmptyString => [EmptyString]
  | String c s' =>
      if Ascii.eqb c sep then EmptyString :: split sep s'
      else match split sep s' with
           | [] => [String c EmptyString]
           | p :: ps => String c p :: ps
           end
  end.

(** [os.path.basename(p)]: what follows the last slash. *)
Definition basename (p : string) : string :=
  last (split "/"%char p) EmptyString.

Definition is_space (c : ascii) : bool :=
  let n := nat_of_ascii c in
  (Nat.eqb n 32 || (Nat.leb 9 n && Nat.leb n 13))%bool.

Fixpoint lstrip (s : string) : string :=
  match s with
  | String c s' => if is_space c then lstrip s' else s
  | EmptyString => EmptyString
  end.

Fixpoint rstrip (s : string) : string :=
  match s with
  | EmptyString => EmptyString
  | String c s' =>
      match rstrip s' with
      | EmptyString => if is_space c then EmptyString else String c EmptyString
      | r => String c r
      end
  end.

Definition digit (c : ascii) : option Z :=
  let n := nat_of_ascii c in
  if (Nat.leb 48 n && Nat.leb n 57)%bool then Some (Z.of_nat (n - 48)) else None.

Fixpoint digits (acc : Z) (s : string) : option Z :=
  match s with
  | EmptyString => Some acc
  | String c s' =>
      match digit c with
      | Some d => digits (10 * acc + d)%Z s'
      | None => None
      end
  end.

Definition unsigned (s : string) : option Z :=
  match s with
  | EmptyString => None
  | _ => digits 0%Z s
  end.

(** [int(s)] for a string: a decimal literal, blanks around it and a sign
    before it allowed; anything else raises [ValueError]. *)
Definition int_of_str (s : string) : result Z :=
  let body := rstrip (lstrip s) in
  let parsed :=
    match body with
    | String "-"%char t => option_map Z.opp (unsigned t)
    | String "+"%char t => unsigned t
    | _ => unsigned body
    end in
  match parsed with
  | Some z => ok z
  | None => throw ValueError
  end.

End Py.

Import Py.

Notation "x <~ r ;; k" := (rbind r (fun x => k))
  (at level 61, r at next level, right associativity).

(** ** Double precision arithmetic *)

Module Float64.

(** The integer nearest to [t], the even one of two equally near. *)
Definition nearest_even (t : Q) : Z :=
  let f := Qfloor t in
  match Qcompare (t - inject_Z f) (1 # 2) with
  | Lt => f
  | Gt => (f + 1)%Z
  | Eq => if Z.even f then f else (f + 1)%Z
  end.

(** The exponent [e] of a positive [q]: [2^e <= q < 2^(e+1)]. *)
Definition ilog2 (q : Q) : Z :=
  let e := (Z.log2 (Qnum q) - Z.log2 (Zpos (Qden q)))%Z in
  if Qle_bool (2 ^ e) q then e else (e - 1)%Z.

(** The exponent of the last of the 53 bits of the double nearest to [q];
    that of the subnormal numbers, [-1074], at the least. *)
Definition ulp_exp (q : Q) : Z := Z.max (ilog2 q - 52) (-1074).

Definition round_pos (q : Q) : Q :=
  let e := ulp_exp q in
  Qred (inject_Z (nearest_even (q / 2 ^ e)) * 2 ^ e).

(** The double nearest to [q]. *)
Definition round (q : Q) : Q :=
  match Qnum q with
  | Z0 => 0
  | Zpos _ => round_pos q
  | Zneg _ => Qred (- round_pos (- q))
  end.

(** [a * b], [a - b] and [a / b] on floats: the operands are doubles (a
    number that is not one stands for the double nearest to it, as a
    literal does) and the result is the exact one, rounded. *)
Definition mul (a b : Q) : Q := round (round a * round b).
Definition sub (a b : Q) : Q := round (round a - round b).

(** [a / b] for a divisor that is not zero. *)
Definition quot (a b : Q) : Q := round (round a / round b).

Definition div (a b : Q) : result Q :=
  if Qeq_bool (round b) 0 then throw ZeroDivisionError else ok (quot a b).

End Float64.

(** [1 / n]: between two ints [/] is the floor division of Python 2. *)
Definition reciprocal (n : number) : result Q :=
  match n with
  | Int z =>
      if Z.eqb z 0 then throw ZeroDivisionError else ok (inject_Z (1 / z))
  | Float q => Float64.div 1 q
  end.

(** ** StyleParser *)

(** The [map_tiles] block of a style. *)
Record MapTiles : Type := mkMapTiles {
  indexing : string;
  url : string;
  http_headers : list (string * string)
}.

(** One record of styles.json.  Keys the program reads without a default
    are plain fields; keys read with a default (or compared to a constant)
    are optional.  [unit_] and [qrcode_] are the keys [unit] and [qrcode]. *)
Record Style : Type := mkStyle {
  unit_ : option string;
  paper_size : list Q;
  map_size : list Q;
  zoom : number;
  margin : list Q;
  area_border_color : list Q;
  area_border_width : Q;
  format : option string;
  map_tiles : option MapTiles;
  qrcode_ : option bool;
  orientation : option string;
  copyright_margin : option (list Q);
  qrcode_margin : option (list Q)
}.

Module StyleParser.

Definition UNIT_CM : string := "cm".
Definition UNIT_MM : string := "mm".
Definition UNIT_PX : string := "px".
Definition UNIT_INCH : string := "in".
Definition DEFAULT_UNIT : string := UNIT_PX.

(** [self.get(key, default)] for an optional key. *)
Definition get {A : Type} (field : option A) (default : A) : A :=
  match field with
  | Some v => v
  | None => default
  end.

Definition _cm_to_px (v : Q) : Q :=
  inject_Z (int (Float64.quot (Float64.mul v 72) (254 # 100))).

Definition _mm_to_px (v : Q) : Q :=
  inject_Z (int (Float64.quot (Float64.mul v 72) (254 # 10))).

Definition _inch_to_px (v : Q) : Q := inject_Z (int (Float64.mul v 72)).

(** The [if]/[elif] chain has no [else]: an unknown unit gives [None]. *)
Definition to_px (st : Style) (value : Q) : num :=
  let unit := get (unit_ st) DEFAULT_UNIT in
  if String.eqb unit UNIT_PX then Some value
  else if String.eqb unit UNIT_CM then Some (_cm_to_px value)
  else if String.eqb unit UNIT_MM then Some (_mm_to_px value)
  else if String.eqb unit UNIT_INCH then Some (_inch_to_px value)
  else None.

(** A style value handed to [get_px], and what comes back. *)
Inductive styleval : Type :=
| Scalar (v : Q)
| Values (l : list Q).

Inductive pxval : Type :=
| PxScalar (v : num)
| PxList (l : list num).

Definition get_px (st : Style) (value : styleval) : pxval :=
  match value with
  | Values l => PxList (map (to_px st) l)
  | Scalar v => PxScalar (to_px st v)
  end.

(** [value[i]] on the result of [get_px]. *)
Definition item (v : pxval) (i : nat) : result num :=
  match v with
  | PxList l => getitem l i
  | PxScalar _ => throw TypeError
  end.

(** [value.reverse()] on the result of [get_px]. *)
Definition reverse (v : pxval) : result pxval :=
  match v with
  | PxList l => ok (PxList (rev l))
  | PxScalar _ => throw AttributeError
  end.

End StyleParser.

(** ** The cairo context *)

Record Image : Type := mkImage {
  img_file : string;
  get_width : Z;
  get_height : Z
}.

(** The calls the program makes on the shared context, in the order made.
    [MapnikRender w h] stands for [mapnik2.render(m, ctx)] on a map of
    [w] by [h] pixels. *)
Inductive call : Type :=
| Save
| Restore
| Scale (sx sy : Q)
| Translate (tx ty : Q)
| MoveTo (px py : Q)
| LineTo (px py : Q)
| ClosePath
| Stroke
| SetSourceRgba (r g b a : Q)
| SetLineWidth (w : Q)
| SelectFontFace (family : string)
| SetFontSize (s : Q)
| ShowText (t : string)
| SetSourceSurface (img : Image) (px py : Q)
| Paint
| MapnikRender (w h : Z).

(** Code that calls the context and may raise. *)
Definition M (A : Type) : Type := (list call * result A)%type.

Definition ret {A : Type} (a : A) : M A := ([], ok a).

Definition emit (c : call) : M unit := ([c], ok tt).

Definition lift {A : Type} (r : result A) : M A := ([], r).

Definition bind {A B : Type} (m : M A) (f : A -> M B) : M B :=
  match m with
  | (tr, inl e) => (tr, inl e)
  | (tr, inr a) => let (tr', r) := f a in (tr ++ tr', r)
  end.

Notation "x <- m ;; k" := (bind m (fun x => k))
  (at level 61, m at next level, right associativity).
Notation "m ;;; k" := (bind m (fun _ => k))
  (at level 61, right associativity).

(** [for a in l: f(a)] *)
Fixpoint for_each {A : Type} (f : A -> M unit) (l : list A) : M unit :=
  match l with
  | [] => ret tt
  | a :: l' => f a ;;; for_each f l'
  end.

Definition calls {A : Type} (m : M A) : list call := fst m.
Definition outcome {A : Type} (m : M A) : result A := snd m.

(** What cairo keeps per context and saves with [save()]: the
    user-to-device transform and the paint settings.  The transform of
    this program is only ever scaled and translated. *)
Module Cairo.

Record Matrix : Type := mkMatrix { xx : Q; yy : Q; x0 : Q; y0 : Q }.

Inductive Source : Type :=
| Black
| Rgba (r g b a : Q)
| Surface (img : Image) (px py : Q).

Record GState : Type := mkGState {
  ctm : Matrix;
  source : Source;
  line_width : Q;
  font_face : string;
  font_size : Q
}.

Record Context : Type := mkContext {
  gstate : GState;
  saved : list GState
}.

(** Device position of a user-space point. *)
Definition to_device (mt : Matrix) (p : Q * Q) : Q * Q :=
  (Qred (xx mt * fst p + x0 mt), Qred (yy mt * snd p + y0 mt)).

(** [scale] and [translate] change the user space: the new transform is
    the old one applied after the scaling or the translation. *)
Definition scale (sx sy : Q) (mt : Matrix) : Matrix :=
  mkMatrix (Qred (xx mt * sx)) (Qred (yy mt * sy)) (x0 mt) (y0 mt).

Definition translate (tx ty : Q) (mt : Matrix) : Matrix :=
  mkMatrix (xx mt) (yy mt) (fst (to_device mt (tx, ty))) (snd (to_device mt (tx, ty))).

Definition set_ctm (f : Matrix -> Matrix) (g : GState) : GState :=
  mkGState (f (ctm g)) (source g) (line_width g) (font_face g) (font_size g).

Definition step (cx : Context) (c : call) : Context :=
  let g := gstate cx in
  match c with
  | Save => mkContext g (g :: saved cx)
  | Restore =>
      match saved cx with
      | g' :: rest => mkContext g' rest
      | [] => cx
      end
  | Scale sx sy => mkContext (set_ctm (scale sx sy) g) (saved cx)
  | Translate tx ty => mkContext (set_ctm (translate tx ty) g) (saved cx)
  | SetSourceRgba r g' b a =>
      mkContext (mkGState (ctm g) (Rgba r g' b a) (line_width g) (font_face g) (font_size g))
                (saved cx)
  | SetSourceSurface img px py =>
      mkContext (mkGState (ctm g) (Surface img px py) (line_width g) (font_face g) (font_size g))
                (saved cx)
  | SetLineWidth w =>
      mkContext (mkGState (ctm g) (source g) w (font_face g) (font_size g)) (saved cx)
  | SelectFontFace f =>
      mkContext (mkGState (ctm g) (source g) (line_width g) f (font_size g)) (saved cx)
  | SetFontSize s =>
      mkContext (mkGState (ctm g) (source g) (line_width g) (font_face g) s) (saved cx)
  | MoveTo _ _ | LineTo _ _ | ClosePath | Stroke | ShowText _ | Paint
  | MapnikRender _ _ => cx
  end.

(** The context after a sequence of calls. *)
Definition exec (tr : list call) (cx : Context) : Context :=
  fold_left step tr cx.

(** A fresh context: identity transform, cairo's default paint settings. *)
Definition initial : Context :=
  mkContext (mkGState (mkMatrix 1 1 0 0) Black 2 EmptyString 10) [].

(** Device positions of the points given to [move_to] and [line_to], each
    under the transform in force at its call. *)
Fixpoint points (tr : list call) (cx : Context) : list (Q * Q) :=
  match tr with
  | [] => []
  | c :: tr' =>
      match c with
      | MoveTo px py | LineTo px py => [to_device (ctm (gstate cx)) (px, py)]
      | _ => []
      end ++ points tr' (step cx c)
  end.

(** For each image set as source: the device position of its pixel (0,0)
    and the device size of one of its pixels. *)
Fixpoint images (tr : list call) (cx : Context) : list (Image * (Q * Q) * (Q * Q)) :=
  match tr with
  | [] => []
  | c :: tr' =>
      match c with
      | SetSourceSurface img px py =>
          let mt := ctm (gstate cx) in
          [(img, to_device mt (px, py), (xx mt, yy mt))]
      | _ => []
      end ++ images tr' (step cx c)
  end.

(** [scale(sx, sy)] is refused, and raises, when the scaling cannot be
    inverted: cairo tests [sx * sy == 0.] on doubles.  [TileLayer.draw],
    whose scale comes from the data, asks; the other layers scale by a
    constant or by the zoom of the style, by which [render] has divided
    before any layer exists. *)
Definition accepts_scale (sx sy : Q) : bool :=
  negb (Qeq_bool (Float64.mul sx sy) 0).

(** A call that neither saves nor restores. *)
Definition plain (c : call) : Prop := c <> Save /\ c <> Restore.

(** A sequence of calls bracketed by one [save()] and one [restore()]. *)
Definition scoped (tr : list call) : Prop :=
  exists body, tr = Save :: body ++ [Restore] /\ Forall plain body.

End Cairo.

(** ** Collaborators *)

Record Coord : Type := mkCoord { cx : Q; cy : Q }.

Inductive Indexing : Type := Google | TMS | F.

(** [GoogleTileLoader], [TMSTileLoader] or [FTileLoader], built from
    [(min_lat, min_lon, max_lat, max_lon, width)]. *)
Record TileLoader : Type := mkTileLoader {
  scheme : Indexing;
  tl_min_lat : Q;
  tl_min_lon : Q;
  tl_max_lat : Q;
  tl_max_lon : Q;
  tl_width : Z
}.

(** [mapnik2.Map(width, height)] zoomed to the projected bounding box. *)
Record Map : Type := mkMap {
  width : Z;
  height : Z;
  view_transform : Coord -> Coord
}.

Record Env : Type := mkEnv {
  (** [mapnik2.ProjTransform(longlat, merc).forward] on a coordinate *)
  proj_forward : Coord -> Coord;
  (** [m.view_transform().forward] of a map of the given size *)
  view_forward : Z -> Z -> Coord -> Coord;
  (** [self.merc_bbox.width()] and [.height()] *)
  merc_bbox_width : Q;
  merc_bbox_height : Q;
  (** [GlobalMercator().TileLatLonBounds(tx, ty, tz)]:
      [(min_lat, min_lon, max_lat, max_lon)] *)
  TileLatLonBounds : Z -> Z -> Z -> Q * Q * Q * Q;
  (** [tileloader.download(cache_dir, url, http_headers)] *)
  download : TileLoader -> string -> string -> list (string * string) -> list string;
  (** [cairo.ImageSurface.create_from_png(filename)]; [None]: it raises *)
  create_from_png : string -> option Image
}.

(** ** Layers *)

(** What the layers read from the renderer; [get_zoom] is the zoom as the
    number that cairo is given. *)
Record Renderer : Type := mkRenderer {
  get_style : Style;
  get_transform : Coord -> Coord;
  get_map : Map;
  get_map_size : StyleParser.pxval;
  get_paper_size : StyleParser.pxval;
  get_zoom : Q
}.

(** An entry of [areas]: [area['path']] is a list of [[lat, lng]]. *)
Record Area : Type := mkArea { path : list (Q * Q) }.

(** The base class. *)
Module Layer.

(** Google Maps uses LatLng, Mapnik uses LngLat. *)
Definition _google_to_mapnik_coord (latlng : Q * Q) : Coord :=
  mkCoord (snd latlng) (fst latlng).

Definition _convert_point (renderer : Renderer) (latlng : Q * Q) : Coord :=
  let coord := _google_to_mapnik_coord latlng in
  let merc_coord := get_transform renderer coord in
  let view_coord := view_transform (get_map renderer) merc_coord in
  view_coord.

End Layer.

Module MapnikLayer.

Record t : Type := mk { renderer : Renderer }.

Definition draw (self : t) : M unit :=
  let m := get_map (renderer self) in
  emit (MapnikRender (width m) (height m)).

End MapnikLayer.

Module AreaLayer.

Record t : Type := mk { renderer : Renderer; areas : list Area }.

(** [while len(coords): coord = coords.pop(); line_to(coord.x, coord.y)].
    The loop is unfolded at most [fuel] times; [_draw_area] gives it the
    length of the list, one round per element. *)
Fixpoint _draw_area_while (fuel : nat) (coords : list Coord) : M unit :=
  match fuel, coords with
  | S fuel', _ :: _ =>
      p <- lift (pop coords) ;;
      emit (LineTo (cx (fst p)) (cy (fst p))) ;;;
      _draw_area_while fuel' (snd p)
  | _, _ => ret tt
  end.

Definition _draw_area (self : t) (area : Area) : M unit :=
  let coords := map (Layer._convert_point (renderer self)) (path area) in
  (if Nat.ltb (List.length coords) 2 then ret tt (* pass *) else ret tt) ;;;
  p <- lift (pop coords) ;;
  let start := fst p in
  let coords := snd p in
  emit (MoveTo (cx start) (cy start)) ;;;
  _draw_area_while (List.length coords) coords ;;;
  emit ClosePath.

Definition draw (self : t) : M unit :=
  let style := get_style (renderer self) in
  emit Save ;;;
  let zoom := get_zoom (renderer self) in
  emit (Scale zoom zoom) ;;;
  for_each (_draw_area self) (areas self) ;;;
  r <- lift (getitem (area_border_color style) 0) ;;
  g <- lift (getitem (area_border_color style) 1) ;;
  b <- lift (getitem (area_border_color style) 2) ;;
  a <- lift (getitem (area_border_color style) 3) ;;
  emit (SetSourceRgba r g b a) ;;;
  emit (SetLineWidth (area_border_width style)) ;;;
  emit Stroke ;;;
  emit Restore.

End AreaLayer.

Module CopyrightLayer.

Record t : Type := mk { renderer : Renderer; text : string }.

Definition draw (self : t) : M unit :=
  let style := get_style (renderer self) in
  emit Save ;;;
  let zoom := 1 in
  emit (Scale zoom zoom) ;;;
  emit (SelectFontFace "Sans") ;;;
  emit (SetFontSize 6) ;;;
  let margin :=
    StyleParser.get_px style
      (StyleParser.Values (StyleParser.get (copyright_margin style) [3; 3])) in
  let map_size := get_map_size (renderer self) in
  x <- lift (StyleParser.item margin 0) ;;
  y <- lift (h <~ StyleParser.item map_size 1 ;;
             mg <~ StyleParser.item margin 1 ;;
             h <~ as_num h ;;
             mg <~ as_num mg ;;
             ok (sub h mg)) ;;
  x <- lift (as_num x) ;;
  emit (MoveTo x y) ;;;
  emit (ShowText (text self)) ;;;
  emit Restore.

End CopyrightLayer.

Module QRCodeLayer.

Record t : Type := mk { renderer : Renderer; qrcode_file : string }.

(** [int(1 / zoom * map_size[i]) - extent - margin[i]] *)
Definition anchor (zoom : Q) (map_size margin : StyleParser.pxval)
    (i : nat) (extent : Z) : result Q :=
  inv <~ div 1 zoom ;;
  s <~ StyleParser.item map_size i ;;
  s <~ as_num s ;;
  let edge := sub (inject_Z (int (mul inv s))) (inject_Z extent) in
  mg <~ StyleParser.item margin i ;;
  mg <~ as_num mg ;;
  ok (sub edge mg).

Definition draw (env : Env) (self : t) : M unit :=
  let style := get_style (renderer self) in
  emit Save ;;;
  let zoom := 3 # 10 in
  emit (Scale zoom zoom) ;;;
  img <- lift (match create_from_png env (qrcode_file self) with
               | Some img => ok img
               | None => throw CairoError
               end) ;;
  let margin :=
    StyleParser.get_px style
      (StyleParser.Values (StyleParser.get (qrcode_margin style) [0; 0])) in
  let map_size := get_map_size (renderer self) in
  x <- lift (anchor zoom map_size margin 0 (get_width img)) ;;
  y <- lift (anchor zoom map_size margin 1 (get_height img)) ;;
  emit (SetSourceSurface img x y) ;;;
  emit Paint ;;;
  emit Restore.

End QRCodeLayer.

Module TileLayer.

Record t : Type := mk {
  renderer : Renderer;
  filename : string;
  tx : Z;
  ty : Z;
  tz : Z
}.

(** XYZ is part of the tile filename. *)
Definition __init__ (renderer : Renderer) (filename : string) : result t :=
  basename <~ getitem (split "."%char (Py.basename filename)) 0 ;;
  let parts := split "_"%char basename in
  if Nat.eqb (List.length parts) 3 then
    p0 <~ getitem parts 0 ;;
    x <~ int_of_str p0 ;;
    p1 <~ getitem parts 1 ;;
    y <~ int_of_str p1 ;;
    p2 <~ getitem parts 2 ;;
    z <~ int_of_str p2 ;;
    ok (mk renderer filename x y z)
  else ok (mk renderer filename 0 0 0).

Definition draw (env : Env) (self : t) : M unit :=
  let '(min_lat, min_lon, max_lat, max_lon) :=
    TileLatLonBounds env (tx self) (ty self) (tz self) in
  let coord_nw := Layer._convert_point (renderer self) (max_lat, min_lon) in
  let coord_se := Layer._convert_point (renderer self) (min_lat, max_lon) in
  let tile_width := Float64.sub (cx coord_se) (cx coord_nw) in
  emit Save ;;;
  img <- lift (match create_from_png env (filename self) with
               | Some img => ok img
               | None => throw CairoError
               end) ;;
  zoom <- lift (Float64.div tile_width 256) ;;
  lift (if Cairo.accepts_scale zoom zoom then ok tt else throw CairoError) ;;;
  emit (Scale zoom zoom) ;;;
  px <- lift (inv <~ Float64.div 1 zoom ;; ok (int (Float64.mul inv (cx coord_nw)))) ;;
  py <- lift (inv <~ Float64.div 1 zoom ;; ok (int (Float64.mul inv (cy coord_nw)))) ;;
  emit (SetSourceSurface img (inject_Z px) (inject_Z py)) ;;;
  emit Paint ;;;
  emit Restore.

End TileLayer.

Module CustomMapLayer.

Record t : Type := mk {
  renderer : Renderer;
  cache_dir : string;
  options : option MapTiles;
  tileloader : option TileLoader
}.

(** [bounds] is [(min_lng, min_lat, max_lng, max_lat)]. *)
Definition __init__ (renderer : Renderer) (cache_dir : string)
    (bounds : Q * Q * Q * Q) : t :=
  match map_tiles (get_style renderer) with
  | Some options =>
      let '(min_lon, min_lat, max_lon, max_lat) := bounds in
      let width := 512%Z in
      let loader k := Some (mkTileLoader k min_lat min_lon max_lat max_lon width) in
      let tileloader :=
        if String.eqb (indexing options) "google" then loader Google
        else if String.eqb (indexing options) "tms" then loader TMS
        else if String.eqb (indexing options) "f" then loader F
        else None in
      mk renderer cache_dir (Some options) tileloader
  | None => mk renderer cache_dir None None
  end.

Definition _get_tiles (env : Env) (self : t) (loader : TileLoader) :
    result (list TileLayer.t) :=
  match options self with
  | Some options =>
      let tile_files :=
        download env loader (cache_dir self) (url options) (http_headers options) in
      collect (TileLayer.__init__ (renderer self)) tile_files
  | None => throw AttributeError
  end.

Definition draw (env : Env) (self : t) : M unit :=
  match tileloader self with
  | Some loader =>
      tiles <- lift (_get_tiles env self loader) ;;
      for_each (TileLayer.draw env) tiles
  | None => ret tt
  end.

End CustomMapLayer.

(** The layers the compositor holds, each with its own [draw]. *)
Inductive layer : Type :=
| Mapnik (l : MapnikLayer.t)
| CustomMap (l : CustomMapLayer.t)
| Tile (l : TileLayer.t)
| Areas (l : AreaLayer.t)
| Copyright (l : CopyrightLayer.t)
| QRCode (l : QRCodeLayer.t).

Definition draw (env : Env) (l : layer) : M unit :=
  match l with
  | Mapnik l => MapnikLayer.draw l
  | CustomMap l => CustomMapLayer.draw env l
  | Tile l => TileLayer.draw env l
  | Areas l => AreaLayer.draw l
  | Copyright l => CopyrightLayer.draw l
  | QRCode l => QRCodeLayer.draw env l
  end.

(** Instantiating a class: the arguments are bound by position to the
    parameters of its [__init__] after [self]; a call that does not fit
    them raises [TypeError]. *)
Inductive arg : Type :=
| ARenderer (r : Renderer)
| AStr (s : string)
| AAreas (a : list Area)
| ABounds (b : Q * Q * Q * Q).

Inductive class : Type :=
| cMapnikLayer
| cCustomMapLayer
| cAreaLayer
| cCopyrightLayer
| cQRCodeLayer.

Definition new (c : class) (args : list arg) : result layer :=
  match c, args with
  | cMapnikLayer, [ARenderer renderer] =>
      ok (Mapnik (MapnikLayer.mk renderer))
  | cCustomMapLayer, [ARenderer renderer; AStr cache_dir; ABounds bounds] =>
      ok (CustomMap (CustomMapLayer.__init__ renderer cache_dir bounds))
  | cAreaLayer, [ARenderer renderer; AAreas areas] =>
      ok (Areas (AreaLayer.mk renderer areas))
  | cCopyrightLayer, [ARenderer renderer; AStr text] =>
      ok (Copyright (CopyrightLayer.mk renderer text))
  | cQRCodeLayer, [ARenderer renderer; AStr qrcode_file] =>
      ok (QRCode (QRCodeLayer.mk renderer qrcode_file))
  | _, _ => throw TypeError
  end.

(** ** MapnikRenderer *)

Inductive Surface : Type :=
| PDFSurface (w h : Q)
| SVGSurface (w h : Z).

Module MapnikRenderer.

Definition COPYRIGHT_TEXT : string := "© OpenStreetMap contributors, CC-BY-SA".
Definition TILE_CACHE_DIR : string := "/tmp/tilecache".

(** Truth value of the [--qrcode] argument: absent or empty is false. *)
Definition truthy (qrcode : option string) : bool :=
  match qrcode with
  | Some (String _ _) => true
  | _ => false
  end.

(** Auto switch of paper and map orientation; the default orientation in
    styles is landscape.  Gives [(paper_size, map_size)]. *)
Definition _get_sizes (env : Env) (style : Style) :
    result (StyleParser.pxval * StyleParser.pxval) :=
  let paper_size := StyleParser.get_px style (StyleParser.Values (paper_size style)) in
  let map_size := StyleParser.get_px style (StyleParser.Values (map_size style)) in
  change <~ match orientation style with
            | Some o =>
                if String.eqb o "auto" then
                  ratio <~ div (merc_bbox_width env) (merc_bbox_height env) ;;
                  ok (negb (Qle_bool 1 ratio))
                else ok false
            | None => ok false
            end ;;
  if (change : bool) then
    paper_size <~ StyleParser.reverse paper_size ;;
    map_size <~ StyleParser.reverse map_size ;;
    ok (paper_size, map_size)
  else ok (paper_size, map_size).

(** [render(style_name, qrcode)] with the style record already looked up
    and [bounds] the parsed [--bbox].  Gives the finished surface. *)
Definition render (env : Env) (areas : list Area) (bounds : Q * Q * Q * Q)
    (style : Style) (qrcode : option string) : M Surface :=
  sizes <- lift (_get_sizes env style) ;;
  let paper_size := fst sizes in
  let map_size := snd sizes in
  let zoom := zoom style in
  zoom_f <- lift (reciprocal zoom) ;;
  mw <- lift (w <~ StyleParser.item map_size 0 ;; w <~ as_num w ;;
              ok (int (Float64.mul zoom_f w))) ;;
  mh <- lift (h <~ StyleParser.item map_size 1 ;; h <~ as_num h ;;
              ok (int (Float64.mul zoom_f h))) ;;
  let m := mkMap mw mh (view_forward env mw mh) in
  let output_format := StyleParser.get (format style) "pdf"%string in
  surface <- lift
    (if String.eqb output_format "pdf" then
       w <~ StyleParser.item paper_size 0 ;;
       h <~ StyleParser.item paper_size 1 ;;
       w <~ as_num w ;;
       h <~ as_num h ;;
       ok (PDFSurface w h)
     else if String.eqb output_format "svg" then
       ok (SVGSurface (width m) (height m))
     else throw TypeError) ;;
  let margin := StyleParser.get_px style (StyleParser.Values (margin style)) in
  mx <- lift (StyleParser.item margin 0) ;;
  my <- lift (StyleParser.item margin 1) ;;
  mx <- lift (as_num mx) ;;
  my <- lift (as_num my) ;;
  emit (Translate mx my) ;;;
  let self := mkRenderer style (proj_forward env) m map_size paper_size (value zoom) in
  l1 <- lift (new cMapnikLayer [ARenderer self]) ;;
  l2 <- lift (new cCustomMapLayer [ARenderer self; AStr TILE_CACHE_DIR; ABounds bounds]) ;;
  l3 <- lift (new cAreaLayer [ARenderer self; AAreas areas]) ;;
  l4 <- lift (new cCopyrightLayer [ARenderer self; AStr COPYRIGHT_TEXT]) ;;
  let layers := [l1; l2; l3; l4] in
  layers <- lift
    (if (truthy qrcode && StyleParser.get (qrcode_ style) true)%bool then
       l5 <~ new cQRCodeLayer [AStr (StyleParser.get qrcode EmptyString)] ;;
       ok (layers ++ [l5])
     else ok layers) ;;
  for_each (draw env) layers ;;;
  ret surface.

End MapnikRenderer.

(** ** Reference definitions and sample inputs *)

Definition line_to (c : Coord) : call := LineTo (cx c) (cy c).

(** The closed polygon through [pts] in the order given: the first point
    starts the path, each other point adds a segment, the path is closed. *)
Definition closed_polygon (pts : list Coord) : list call :=
  match pts with
  | [] => []
  | p :: rest => MoveTo (cx p) (cy p) :: map line_to rest ++ [ClosePath]
  end.

(** Code whose calls neither save nor restore, however it ends. *)
Definition plain_calls {A : Type} (m : M A) : Prop :=
  Forall Cairo.plain (calls m).

(** Code that, when it returns, has made such calls and then one
    [restore()]. *)
Definition closes {A : Type} (m : M A) : Prop :=
  forall tr a, m = (tr, ok a) ->
  exists body, tr = body ++ [Restore] /\ Forall Cairo.plain body.

(** Code that, when it returns, leaves the context as it found it. *)
Definition restores {A : Type} (m : M A) : Prop :=
  forall tr a, m = (tr, ok a) -> forall c, Cairo.exec tr c = c.

(** The layers whose [draw] calls [save()] and [restore()] itself. *)
Definition brackets (l : layer) : bool :=
  match l with
  | Tile _ | Areas _ | Copyright _ | QRCode _ => true
  | Mapnik _ | CustomMap _ => false
  end.

(** Pixels per unit, untruncated: 72 px/in, cm and mm derived from it. *)
Definition px_per_unit (unit : string) : option Q :=
  if String.eqb unit "px" then Some 1
  else if String.eqb unit "in" then Some 72
  else if String.eqb unit "cm" then Some (72 / (254 # 100))
  else if String.eqb unit "mm" then Some (72 / (254 # 10))
  else None.

(** [z] is [q] with its fraction dropped. *)
Definition truncation (q : Q) (z : Z) : Prop :=
  (0 <= q -> inject_Z z <= q /\ q < inject_Z z + 1) /\
  (q <= 0 -> q <= inject_Z z /\ inject_Z z - 1 < q).

(** Double precision arithmetic against exact arithmetic.  Rounding to
    the nearest double changes a number by at most the fraction
    [unit_roundoff] of it, or by [underflow_unit] for the numbers nearest
    to zero. *)
Definition unit_roundoff : Q := 2 ^ (-53).
Definition underflow_unit : Q := 2 ^ (-1075).

(** [y] is [x] up to the relative error [e] and the absolute error [s]. *)
Definition approx (e s y x : Q) : Prop :=
  0 <= e /\ 0 <= s /\ Qabs (y - x) <= e * Qabs x + s.

(** The errors after one more rounding, after a product of two
    approximations of factors no larger than [Bx] and [By], and after the
    inverse of the rounding of a number no smaller than [2^-500]. *)
Definition e_round (e : Q) : Q := e + unit_roundoff + unit_roundoff * e.
Definition s_round (s : Q) : Q := (1 + unit_roundoff) * s + underflow_unit.
Definition e_mul (e1 e2 : Q) : Q := e1 + e2 + e1 * e2.
Definition s_mul (e1 s1 e2 s2 Bx By : Q) : Q :=
  s1 * ((1 + e2) * By + s2) + s2 * (1 + e1) * Bx.
Definition e_inv : Q :=
  let e := unit_roundoff + underflow_unit / 2 ^ (-500) in e / (1 - e).

(** [z] is [x] with its fraction dropped, where [x] was computed in
    double precision: [z] is a whole number no farther from zero than
    [x] and less than one away from [x], both up to the fraction [2^-50]
    of [x]. *)
Definition float_truncation (x : Q) (z : Z) : Prop :=
  Qabs (inject_Z z) <= (1 + 2 ^ (-50)) * Qabs x
  /\ Qabs (inject_Z z - x) < 1 + 2 ^ (-50) * Qabs x.

(** A number that is a double. *)
Definition is_double (q : Q) : Prop := Float64.round q == q.

Definition with_unit (u : option string) (st : Style) : Style :=
  mkStyle u (paper_size st) (map_size st) (zoom st) (margin st)
    (area_border_color st) (area_border_width st) (format st) (map_tiles st)
    (qrcode_ st) (orientation st) (copyright_margin st) (qrcode_margin st).

Definition with_zoom (z : Q) (r : Renderer) : Renderer :=
  mkRenderer (get_style r) (get_transform r) (get_map r) (get_map_size r)
    (get_paper_size r) z.

Definition tile_with_zoom (z : Q) (t : TileLayer.t) : TileLayer.t :=
  TileLayer.mk (with_zoom z (TileLayer.renderer t)) (TileLayer.filename t)
    (TileLayer.tx t) (TileLayer.ty t) (TileLayer.tz t).

Module Sample.

(** A landscape style in pixels, zoom one half. *)
Definition style : Style :=
  mkStyle None [800; 600] [600; 400] (Float (1 # 2)) [10; 20] [1; 0; 0; 1] 2
    None None None None None None.

Definition auto_style : Style :=
  mkStyle None [800; 600] [600; 400] (Float (1 # 2)) [10; 20] [1; 0; 0; 1] 2
    None None None (Some "auto"%string) None None.

(** Transforms that leave coordinates as they are; one tile whose bounds
    are [(min_lat, min_lon, max_lat, max_lon) = (0, 0, 256, 256)]; every
    PNG decodes to 256 by 256 pixels. *)
Definition env : Env :=
  mkEnv (fun c => c) (fun _ _ c => c) 3 2
    (fun _ _ _ => (0, 0, 256, 256))
    (fun _ _ _ _ => ["/tmp/tilecache/1_2_3.png"%string])
    (fun f => Some (mkImage f 256 256)).

(** The same with a bounding box taller than wide. *)
Definition portrait_env : Env :=
  mkEnv (fun c => c) (fun _ _ c => c) 2 3
    (fun _ _ _ => (0, 0, 256, 256))
    (fun _ _ _ _ => [])
    (fun f => Some (mkImage f 256 256)).

(** A tile of 1024 view pixels whose north-west corner is at (10, 20). *)
Definition wide_tile_env : Env :=
  mkEnv (fun c => c) (fun _ _ c => c) 3 2
    (fun _ _ _ => (0, 10, 20, 1034))
    (fun _ _ _ _ => [])
    (fun f => Some (mkImage f 256 256)).

Definition renderer : Renderer :=
  mkRenderer style (fun c => c) (mkMap 1200 800 (fun c => c))
    (StyleParser.PxList [Some 600; Some 400])
    (StyleParser.PxList [Some 800; Some 600]) (1 # 2).

Definition tile : TileLayer.t :=
  TileLayer.mk renderer "/tmp/tilecache/1_2_3.png" 1 2 3.

(** The square with the corners of [tile], as an area. *)
Definition square : Area :=
  mkArea [(256, 0); (256, 256); (0, 256); (0, 0)].

End Sample.

(** ** googleBoundsToBox2d *)

(** More of the string runtime: [s.strip(chars)] and [str(n)]. *)
Module PyStr.

(** [c in s] *)
Fixpoint contains (c : ascii) (s : string) : bool :=
  match s with
  | EmptyString => false
  | String c' s' => (Ascii.eqb c' c || contains c s')%bool
  end.

Fixpoint lstrip (chars : string) (s : string) : string :=
  match s with
  | String c s' => if contains c chars then lstrip chars s' else s
  | EmptyString => EmptyString
  end.

Fixpoint rstrip (chars : string) (s : string) : string :=
  match s with
  | EmptyString => EmptyString
  | String c s' =>
      match rstrip chars s' with
      | EmptyString => if contains c chars then EmptyString else String c EmptyString
      | r => String c r
      end
  end.

(** [s.strip(chars)]: drops from both ends the characters in [chars]. *)
Definition strip (chars : string) (s : string) : string :=
  rstrip chars (lstrip chars s).

(** [str(n)] for an int: decimal digits, a minus sign before a negative. *)
Definition str (n : Z) : string :=
  DecimalString.NilEmpty.string_of_int (Z.to_int n).

End PyStr.

(** Google bounds [toString()] gives
    [((61.477925877956785, 21.768811679687474), (61.488948601502614, 21.823743320312474))].
    [float] is Python's conversion of a string to a float. *)
Definition googleBoundsToBox2d (float : string -> result Q) (google_bounds : string) :
    result (Q * Q * Q * Q) :=
  let parts := split ","%char google_bounds in
  let strip_str := "() "%string in
  p0 <~ getitem parts 0 ;;
  min_lat <~ float (PyStr.strip strip_str p0) ;;
  p1 <~ getitem parts 1 ;;
  min_lng <~ float (PyStr.strip strip_str p1) ;;
  p2 <~ getitem parts 2 ;;
  max_lat <~ float (PyStr.strip strip_str p2) ;;
  p3 <~ getitem parts 3 ;;
  max_lng <~ float (PyStr.strip strip_str p3) ;;
  ok (min_lng, min_lat, max_lng, max_lat).

(** ** Further reference definitions *)

Definition is_paint (c : call) : bool :=
  match c with
  | Paint => true
  | _ => false
  end.

(** A coordinate as the pair given to [move_to] and [line_to]. *)
Definition xy (c : Coord) : Q * Q := (cx c, cy c).

(** A coordinate text: not empty, without comma, and with no bracket or
    blank at either end. *)
Definition coordinate_text (s : string) : Prop :=
  PyStr.contains ","%char s = false
  /\ PyStr.rstrip "() " s = s
  /\ exists c s', s = String c s' /\ PyStr.contains c "() " = false.

(** The style with another [format]. *)
Definition with_format (f : option string) (st : Style) : Style :=
  mkStyle (unit_ st) (paper_size st) (map_size st) (zoom st) (margin st)
    (area_border_color st) (area_border_width st) f (map_tiles st)
    (qrcode_ st) (orientation st) (copyright_margin st) (qrcode_margin st).

(** Further sample inputs. *)
Module Cases.

(** The loader returns a good and a bad file name. *)
Definition bad_name_env : Env :=
  mkEnv (fun c => c) (fun _ _ c => c) 3 2
    (fun _ _ _ => (0, 0, 256, 256))
    (fun _ _ _ _ => ["/tmp/tilecache/1_2_3.png"; "/tmp/tilecache/a_b_c.png"]%string)
    (fun f => Some (mkImage f 256 256)).

(** A tile overlay with a Google loader. *)
Definition tiled_layer : CustomMapLayer.t :=
  CustomMapLayer.mk Sample.renderer "/tmp/tilecache"
    (Some (mkMapTiles "google" "http://tiles/" []))
    (Some (mkTileLoader Google 0 0 1 1 512)).

(** No PNG decodes. *)
Definition no_png_env : Env :=
  mkEnv (fun c => c) (fun _ _ c => c) 3 2
    (fun _ _ _ => (0, 0, 256, 256))
    (fun _ _ _ _ => ["/tmp/tilecache/1_2_3.png"%string])
    (fun _ => None).

(** A projected bounding box without height. *)
Definition flat_bbox_env : Env :=
  mkEnv (fun c => c) (fun _ _ c => c) 3 0
    (fun _ _ _ => (0, 0, 256, 256))
    (fun _ _ _ _ => [])
    (fun f => Some (mkImage f 256 256)).

(** A tile of 49 view pixels whose north-west corner is at (49, 20). *)
Definition narrow_tile_env : Env :=
  mkEnv (fun c => c) (fun _ _ c => c) 3 2
    (fun _ _ _ => (0, 49, 20, 98))
    (fun _ _ _ _ => [])
    (fun f => Some (mkImage f 256 256)).

(** A tile whose corners convert to the same x. *)
Definition flat_tile_env : Env :=
  mkEnv (fun c => c) (fun _ _ c => c) 3 2
    (fun _ _ _ => (0, 49, 20, 49))
    (fun _ _ _ _ => [])
    (fun f => Some (mkImage f 256 256)).

(** [float] on the four coordinates of the bounding box of the spec's
    scenario; any other text raises. *)
Definition float (s : string) : result Q :=
  if String.eqb s "61.4779" then ok (614779 # 10000)
  else if String.eqb s "21.7688" then ok (217688 # 10000)
  else if String.eqb s "61.4889" then ok (614889 # 10000)
  else if String.eqb s "21.8237" then ok (218237 # 10000)
  else throw ValueError.

End Cases.

(** * Properties *)

(** ** Numbers *)

Lemma int_nonneg (q : Q) : 0 <= q -> int q = Qfloor q.
Proof.
  destruct q as [n d]. unfold Qle, int, Qfloor. simpl. intros H.
  apply Z.quot_div_nonneg; lia.
Qed.

Lemma int_nonpos (q : Q) : q <= 0 -> int q = Qceiling q.
Proof.
  destruct q as [n d]. unfold Qle, int, Qceiling, Qfloor. simpl. intros H.
  rewrite <- (Z.opp_involutive n) at 1.
  rewrite Z.quot_opp_l by lia.
  f_equal. apply Z.quot_div_nonneg; lia.
Qed.

(** [int] drops the fraction. *)
Lemma int_truncation (q : Q) : truncation q (int q).
Proof.
  split; intros H.
  - rewrite (int_nonneg q H). split.
    + apply Qfloor_le.
    + change 1 with (inject_Z 1). rewrite <- inject_Z_plus. apply Qlt_floor.
  - rewrite (int_nonpos q H). split.
    + apply Qle_ceiling.
    + assert (E : inject_Z (Qceiling q) - 1 == inject_Z (Qceiling q - 1)).
      { unfold Z.sub. rewrite inject_Z_plus. reflexivity. }
      rewrite E. apply Qceiling_lt.
Qed.

(** [int] does not see how a number is written. *)
Lemma int_Qeq (q q' : Q) : q == q' -> int q = int q'.
Proof.
  destruct q as [n d], q' as [n' d']. unfold Qeq, int. simpl. intros H.
  rewrite <- (Z.quot_mul_cancel_r n (Zpos d) (Zpos d')) by lia.
  rewrite H.
  rewrite (Z.mul_comm (Zpos d) (Zpos d')).
  apply Z.quot_mul_cancel_r; lia.
Qed.

Lemma int_error_lt_1 (q : Q) : Qabs (q - inject_Z (int q)) < 1.
Proof.
  destruct (int_truncation q) as [Hp Hn].
  apply Qabs_Qlt_condition.
  destruct (Qlt_le_dec q 0) as [Hq | Hq].
  - destruct Hn as [H1 H2]; lra.
  - destruct Hp as [H1 H2]; lra.
Qed.

Lemma Qabs_gt_0 (z : Q) : ~ z == 0 -> 0 < Qabs z.
Proof.
  intros H. apply Qabs_case; intros Hz.
  - destruct (Qle_lt_or_eq _ _ Hz) as [Hlt | Heq]; [exact Hlt|].
    exfalso. apply H. symmetry. exact Heq.
  - destruct (Qle_lt_or_eq _ _ Hz) as [Hlt | Heq]; [lra|].
    exfalso. apply H. exact Heq.
Qed.

Lemma div_ok (a b : Q) : ~ b == 0 -> div a b = ok (Qred (a / b)).
Proof.
  intros H. unfold div.
  destruct (Qeq_bool b 0) eqn:E; [|reflexivity].
  apply Qeq_bool_iff in E. contradiction.
Qed.

Lemma div_zero (a b : Q) : b == 0 -> div a b = throw ZeroDivisionError.
Proof.
  intros H. unfold div. apply Qeq_bool_iff in H. now rewrite H.
Qed.

(** ** Rounding to the nearest double *)

Lemma pow2_pos (k : Z) : 0 < 2 ^ k.
Proof. apply Qpower_0_lt. reflexivity. Qed.

Lemma pow2_add (a b : Z) : 2 ^ (a + b) == 2 ^ a * 2 ^ b.
Proof. apply Qpower_plus. discriminate. Qed.

Lemma pow2_le (a b : Z) : (a <= b)%Z -> 2 ^ a <= 2 ^ b.
Proof. intros H. apply Qpower_le_compat_l; [exact H | discriminate]. Qed.

Lemma pow2_Z (k : Z) : (0 <= k)%Z -> inject_Z (2 ^ k) == 2 ^ k.
Proof. intros H. now rewrite Zpower_Qpower. Qed.

Lemma pow2_sub (a b : Z) : 2 ^ (a - b) == 2 ^ a / 2 ^ b.
Proof.
  unfold Z.sub. rewrite pow2_add, Qpower_opp. reflexivity.
Qed.

Lemma floor_fraction (t : Q) : 0 <= t - inject_Z (Qfloor t) /\ t - inject_Z (Qfloor t) < 1.
Proof.
  pose proof (Qfloor_le t). pose proof (Qlt_floor t) as H1.
  rewrite inject_Z_plus in H1. change (inject_Z 1) with 1 in H1. split; lra.
Qed.

Lemma nearest_even_cases (t : Q) :
  (Float64.nearest_even t = Qfloor t /\ t - inject_Z (Qfloor t) <= 1 # 2)
  \/ (Float64.nearest_even t = (Qfloor t + 1)%Z /\ 1 # 2 <= t - inject_Z (Qfloor t)).
Proof.
  unfold Float64.nearest_even.
  destruct (Qcompare_spec (t - inject_Z (Qfloor t)) (1 # 2)) as [H | H | H].
  - destruct (Z.even (Qfloor t)); [left | right]; split; auto; rewrite H; apply Qle_refl.
  - left. split; [reflexivity | now apply Qlt_le_weak].
  - right. split; [reflexivity | now apply Qlt_le_weak].
Qed.

Lemma nearest_even_half (t : Q) : Qabs (inject_Z (Float64.nearest_even t) - t) <= 1 # 2.
Proof.
  destruct (floor_fraction t) as [H0 H1].
  apply Qabs_Qle_condition.
  destruct (nearest_even_cases t) as [[-> H] | [-> H]].
  - split; lra.
  - rewrite inject_Z_plus. change (inject_Z 1) with 1. split; lra.
Qed.

Lemma nearest_even_lower (n : Z) (t : Q) :
  inject_Z n <= t -> (n <= Float64.nearest_even t)%Z.
Proof.
  intros H. apply Qfloor_resp_le in H. rewrite Qfloor_Z in H.
  destruct (nearest_even_cases t) as [[-> _] | [-> _]]; lia.
Qed.

Lemma nearest_even_upper (n : Z) (t : Q) :
  t <= inject_Z n -> (Float64.nearest_even t <= n)%Z.
Proof.
  intros H. pose proof (Qfloor_resp_le _ _ H) as Hf. rewrite Qfloor_Z in Hf.
  destruct (nearest_even_cases t) as [[-> _] | [-> Hh]]; [exact Hf|].
  destruct (Z.eq_dec (Qfloor t) n) as [E | E]; [|lia].
  exfalso. rewrite E in Hh. lra.
Qed.

Lemma nearest_even_monotone (t t' : Q) :
  t <= t' -> (Float64.nearest_even t <= Float64.nearest_even t')%Z.
Proof.
  intros H. pose proof (Qfloor_resp_le _ _ H) as Hf.
  destruct (Z.eq_dec (Qfloor t) (Qfloor t')) as [E | E].
  - unfold Float64.nearest_even. rewrite <- E.
    destruct (Qcompare_spec (t - inject_Z (Qfloor t)) (1 # 2)) as [H1 | H1 | H1];
      destruct (Qcompare_spec (t' - inject_Z (Qfloor t)) (1 # 2)) as [H2 | H2 | H2];
      try lia; try (destruct (Z.even (Qfloor t)); lia); exfalso; lra.
  - apply Z.le_trans with (Qfloor t + 1)%Z.
    + destruct (nearest_even_cases t) as [[-> _] | [-> _]]; lia.
    + apply Z.le_trans with (Qfloor t'); [lia|].
      destruct (nearest_even_cases t') as [[-> _] | [-> _]]; lia.
Qed.

Lemma ilog2_spec (q : Q) :
  0 < q -> 2 ^ Float64.ilog2 q <= q /\ q < 2 ^ (Float64.ilog2 q + 1).
Proof.
  intros Hq. destruct q as [n d]. unfold Float64.ilog2. cbn [Qnum Qden].
  assert (Hn : (0 < n)%Z) by (unfold Qlt in Hq; simpl in Hq; lia).
  set (a := Z.log2 n). set (b := Z.log2 (Zpos d)).
  assert (Ha : (0 <= a)%Z) by apply Z.log2_nonneg.
  assert (Hb : (0 <= b)%Z) by apply Z.log2_nonneg.
  destruct (Z.log2_spec n Hn) as [Ha1 Ha2]. fold a in Ha1, Ha2.
  destruct (Z.log2_spec (Zpos d) (Pos2Z.is_pos d)) as [Hb1 Hb2]. fold b in Hb1, Hb2.
  assert (Eq : n # d == inject_Z n / inject_Z (Zpos d)) by apply Qmake_Qdiv.
  assert (Hd : 0 < inject_Z (Zpos d)) by (rewrite <- (Zlt_Qlt 0); lia).
  assert (La : 2 ^ a <= inject_Z n) by (rewrite <- pow2_Z by lia; now rewrite <- Zle_Qle).
  assert (Ua : inject_Z n < 2 ^ (a + 1)).
  { rewrite <- pow2_Z by lia. rewrite <- Zlt_Qlt. unfold Z.succ in Ha2. exact Ha2. }
  assert (Lb : 2 ^ b <= inject_Z (Zpos d)) by (rewrite <- pow2_Z by lia; now rewrite <- Zle_Qle).
  assert (Ub : inject_Z (Zpos d) < 2 ^ (b + 1)).
  { rewrite <- pow2_Z by lia. rewrite <- Zlt_Qlt. unfold Z.succ in Hb2. exact Hb2. }
  pose proof (pow2_pos b) as Pb. pose proof (pow2_pos (b + 1)) as Pb1.
  pose proof (pow2_pos a) as Pa.
  (* 2^(a-b-1) < q < 2^(a-b+1) *)
  assert (Lo : 2 ^ (a - b - 1) <= n # d).
  { rewrite Eq. replace (a - b - 1)%Z with (a - (b + 1))%Z by lia. rewrite pow2_sub.
    apply Qle_shift_div_l; [exact Hd|].
    apply Qle_trans with (2 ^ a / 2 ^ (b + 1) * 2 ^ (b + 1)).
    - apply Qmult_le_l.
      + apply Qlt_shift_div_l; [exact Pb1 | lra].
      + now apply Qlt_le_weak.
    - assert (E : 2 ^ a / 2 ^ (b + 1) * 2 ^ (b + 1) == 2 ^ a) by (field; lra).
      rewrite E. exact La. }
  assert (Up : n # d < 2 ^ (a - b + 1)).
  { rewrite Eq. replace (a - b + 1)%Z with (a + 1 - b)%Z by lia. rewrite pow2_sub.
    apply Qlt_shift_div_r; [exact Hd|].
    apply Qlt_le_trans with (2 ^ (a + 1)); [exact Ua|].
    assert (E : 2 ^ (a + 1) == 2 ^ (a + 1) / 2 ^ b * 2 ^ b) by (field; lra).
    rewrite E at 1. apply Qmult_le_l; [|exact Lb].
    apply Qlt_shift_div_l; [exact Pb|]. pose proof (pow2_pos (a + 1)). lra. }
  destruct (Qle_bool (2 ^ (a - b)) (n # d)) eqn:E.
  - apply Qle_bool_iff in E. split; [exact E | exact Up].
  - assert (Hlt : n # d < 2 ^ (a - b)).
    { apply Qnot_le_lt. intros H. apply Qle_bool_iff in H. congruence. }
    split; [exact Lo|]. replace (a - b - 1 + 1)%Z with (a - b)%Z by lia. exact Hlt.
Qed.

Lemma ilog2_monotone (x y : Q) :
  0 < x -> x <= y -> (Float64.ilog2 x <= Float64.ilog2 y)%Z.
Proof.
  intros Hx Hxy.
  destruct (ilog2_spec x Hx) as [Lx _].
  destruct (ilog2_spec y (Qlt_le_trans _ _ _ Hx Hxy)) as [_ Uy].
  destruct (Z_le_gt_dec (Float64.ilog2 x) (Float64.ilog2 y)) as [H | H]; [exact H|].
  exfalso. pose proof (pow2_le (Float64.ilog2 y + 1) (Float64.ilog2 x) ltac:(lia)). lra.
Qed.

Lemma ulp_exp_monotone (x y : Q) :
  0 < x -> x <= y -> (Float64.ulp_exp x <= Float64.ulp_exp y)%Z.
Proof.
  intros Hx Hxy. unfold Float64.ulp_exp.
  pose proof (ilog2_monotone x y Hx Hxy). lia.
Qed.

Lemma round_pos_eq (q : Q) :
  Float64.round_pos q
  == inject_Z (Float64.nearest_even (q / 2 ^ Float64.ulp_exp q)) * 2 ^ Float64.ulp_exp q.
Proof. unfold Float64.round_pos. apply Qred_correct. Qed.

Lemma round_pos_nonneg (q : Q) : 0 < q -> 0 <= Float64.round_pos q.
Proof.
  intros Hq. rewrite round_pos_eq.
  pose proof (pow2_pos (Float64.ulp_exp q)) as Hp.
  apply Qmult_le_0_compat; [|lra].
  change 0 with (inject_Z 0). rewrite <- Zle_Qle. apply nearest_even_lower.
  change (inject_Z 0) with 0. apply Qle_shift_div_l; [exact Hp | lra].
Qed.

(** Rounding moves a number by at most half a unit in its last place. *)
Lemma round_pos_error (q : Q) :
  0 < q ->
  Qabs (Float64.round_pos q - q) <= 2 ^ Float64.ulp_exp q / 2.
Proof.
  intros Hq. rewrite round_pos_eq.
  set (e := Float64.ulp_exp q). pose proof (pow2_pos e) as Hp.
  pose proof (nearest_even_half (q / 2 ^ e)) as Hh.
  assert (E : inject_Z (Float64.nearest_even (q / 2 ^ e)) * 2 ^ e - q
              == (inject_Z (Float64.nearest_even (q / 2 ^ e)) - q / 2 ^ e) * 2 ^ e)
    by (field; lra).
  rewrite E, Qabs_Qmult, (Qabs_pos (2 ^ e)) by lra.
  apply Qle_trans with ((1 # 2) * 2 ^ e).
  - apply Qmult_le_compat_r; [exact Hh | lra].
  - apply Qle_lteq. right. field.
Qed.

Lemma half_ulp_bound (q : Q) :
  0 < q -> 2 ^ Float64.ulp_exp q / 2 <= 2 ^ (-53) * q + 2 ^ (-1075).
Proof.
  intros Hq. unfold Float64.ulp_exp.
  destruct (ilog2_spec q Hq) as [L _].
  pose proof (pow2_pos (-1075)) as P1. pose proof (pow2_pos (-53)) as P2.
  destruct (Z.max_spec (Float64.ilog2 q - 52) (-1074)) as [[_ ->] | [_ ->]].
  - assert (E : 2 ^ (-1074) / 2 == 2 ^ (-1075)) by reflexivity.
    rewrite E. assert (0 <= 2 ^ (-53) * q) by (apply Qmult_le_0_compat; lra). lra.
  - assert (E : 2 ^ (Float64.ilog2 q - 52) / 2 == 2 ^ (-53) * 2 ^ Float64.ilog2 q).
    { replace (Float64.ilog2 q - 52)%Z with (-52 + Float64.ilog2 q)%Z by lia.
      rewrite pow2_add.
      assert (E' : 2 ^ (-52) / 2 == 2 ^ (-53)) by reflexivity.
      rewrite <- E'. field. }
    rewrite E.
    assert (2 ^ (-53) * 2 ^ Float64.ilog2 q <= 2 ^ (-53) * q).
    { apply Qmult_le_l; [exact P2 | exact L]. }
    lra.
Qed.

Lemma round_pos_monotone (x y : Q) :
  0 < x -> x <= y -> Float64.round_pos x <= Float64.round_pos y.
Proof.
  intros Hx Hxy. assert (Hy : 0 < y) by lra.
  rewrite !round_pos_eq.
  pose proof (ulp_exp_monotone x y Hx Hxy) as He.
  set (ex := Float64.ulp_exp x) in *. set (ey := Float64.ulp_exp y) in *.
  pose proof (pow2_pos ex) as Px. pose proof (pow2_pos ey) as Py.
  destruct (Z.eq_dec ex ey) as [E | E].
  - rewrite <- E. apply Qmult_le_compat_r; [|lra].
    rewrite <- Zle_Qle. apply nearest_even_monotone.
    apply Qmult_le_compat_r; [exact Hxy|]. apply Qlt_le_weak, Qinv_lt_0_compat, Px.
  - (* the exponent of y is larger: a full binade apart *)
    destruct (ilog2_spec x Hx) as [_ Ux]. destruct (ilog2_spec y Hy) as [Ly _].
    assert (Eey : ey = (Float64.ilog2 y - 52)%Z).
    { unfold ey, ex, Float64.ulp_exp in *. lia. }
    assert (Hex : (Float64.ilog2 x - 52 <= ex)%Z) by (unfold ex, Float64.ulp_exp; lia).
    assert (Mx : (Float64.nearest_even (x / 2 ^ ex) <= 2 ^ 53)%Z).
    { apply nearest_even_upper.
      apply Qle_trans with (2 ^ 53); [|rewrite (pow2_Z 53) by lia; apply Qle_refl].
      apply Qle_shift_div_r; [exact Px|].
      rewrite <- pow2_add.
      apply Qle_trans with (2 ^ (Float64.ilog2 x + 1)); [lra|]. apply pow2_le. lia. }
    assert (My : (2 ^ 52 <= Float64.nearest_even (y / 2 ^ ey))%Z).
    { apply nearest_even_lower.
      apply Qle_trans with (2 ^ 52); [rewrite (pow2_Z 52) by lia; apply Qle_refl|].
      apply Qle_shift_div_l; [exact Py|].
      rewrite <- pow2_add. replace (52 + ey)%Z with (Float64.ilog2 y) by lia. exact Ly. }
    apply Qle_trans with (2 ^ 53 * 2 ^ ex).
    + apply Qmult_le_compat_r; [|lra]. rewrite <- (pow2_Z 53) by lia. now rewrite <- Zle_Qle.
    + apply Qle_trans with (2 ^ 52 * 2 ^ ey).
      * rewrite <- !pow2_add. apply pow2_le. lia.
      * apply Qmult_le_compat_r; [|lra]. rewrite <- (pow2_Z 52) by lia. now rewrite <- Zle_Qle.
Qed.

Lemma round_cases (q : Q) :
  (q == 0 /\ Float64.round q = 0)
  \/ (0 < q /\ Float64.round q = Float64.round_pos q)
  \/ (q < 0 /\ Float64.round q == - Float64.round_pos (- q)).
Proof.
  destruct q as [[|n|n] d]; unfold Float64.round; cbn [Qnum].
  - left. split; reflexivity.
  - right. left. split; reflexivity.
  - right. right. split; [reflexivity | apply Qred_correct].
Qed.

Theorem round_monotone (x y : Q) : x <= y -> Float64.round x <= Float64.round y.
Proof.
  intros H.
  destruct (round_cases x) as [[Hx ->] | [[Hx ->] | [Hx ->]]];
    destruct (round_cases y) as [[Hy ->] | [[Hy ->] | [Hy ->]]]; try lra.
  - now apply round_pos_nonneg.
  - now apply round_pos_monotone.
  - pose proof (round_pos_nonneg (- x)). lra.
  - pose proof (round_pos_nonneg (- x)). pose proof (round_pos_nonneg y Hy). lra.
  - pose proof (round_pos_monotone (- y) (- x)). lra.
Qed.

(** The rounding error: at most [2^-53] of the number, or [2^-1075] for
    the smallest ones. *)
Theorem round_error (q : Q) :
  Qabs (Float64.round q - q) <= 2 ^ (-53) * Qabs q + 2 ^ (-1075).
Proof.
  pose proof (pow2_pos (-1075)) as P1. pose proof (pow2_pos (-53)) as P2.
  destruct (round_cases q) as [[Hq ->] | [[Hq ->] | [Hq ->]]].
  - rewrite Hq. change (Qabs (0 - 0)) with 0. change (Qabs 0) with 0. lra.
  - rewrite (Qabs_pos q) by lra.
    eapply Qle_trans; [apply round_pos_error, Hq | apply half_ulp_bound, Hq].
  - rewrite (Qabs_neg q) by lra.
    assert (E : - Float64.round_pos (- q) - q == - (Float64.round_pos (- q) - - q)) by ring.
    rewrite E, Qabs_opp.
    eapply Qle_trans; [apply round_pos_error; lra | apply half_ulp_bound; lra].
Qed.

Lemma round_proper (q q' : Q) : q == q' -> Float64.round q == Float64.round q'.
Proof.
  intros E. apply Qle_antisym; apply round_monotone; rewrite E; apply Qle_refl.
Qed.

(** ** Double precision arithmetic against exact arithmetic *)

Lemma closed_Qle (a b : Q) : Qle_bool a b = true -> a <= b.
Proof. apply Qle_bool_iff. Qed.

Lemma closed_Qlt (a b : Q) : Qle_bool b a = false -> a < b.
Proof.
  intros H. apply Qnot_le_lt. intros Hle. apply Qle_bool_iff in Hle. congruence.
Qed.

(** An inequality between two numbers that are given. *)
Ltac closed := (apply closed_Qle || apply closed_Qlt); vm_compute; reflexivity.

Lemma round_opp (q : Q) : Float64.round (- q) == - Float64.round q.
Proof.
  destruct (round_cases q) as [[Hq E] | [[Hq E] | [Hq E]]];
    destruct (round_cases (- q)) as [[Hq' E'] | [[Hq' E'] | [Hq' E']]]; try lra;
    rewrite E, E'.
  - reflexivity.
  - apply Qopp_comp. apply Qle_antisym; apply round_pos_monotone; lra.
  - rewrite Qopp_involutive. apply Qle_antisym; apply round_pos_monotone; lra.
Qed.

(** A double below the size of a number is below the size of its
    rounding. *)
Lemma round_abs_lower (q lo : Q) :
  0 < lo -> is_double lo -> lo <= Qabs q -> lo <= Qabs (Float64.round q).
Proof.
  intros Hlo Hd H. unfold is_double in Hd.
  destruct (Qlt_le_dec q 0) as [Hq | Hq].
  - rewrite (Qabs_neg q) in H by lra.
    assert (M : Float64.round q <= Float64.round (- lo)) by (apply round_monotone; lra).
    rewrite round_opp, Hd in M. rewrite Qabs_neg; lra.
  - rewrite (Qabs_pos q) in H by lra.
    assert (M : Float64.round lo <= Float64.round q) by (apply round_monotone; lra).
    rewrite Hd in M. rewrite Qabs_pos; lra.
Qed.

Lemma float_div_ok (a b : Q) :
  ~ Float64.round b == 0 -> Float64.div a b = ok (Float64.quot a b).
Proof.
  intros H. unfold Float64.div.
  destruct (Qeq_bool (Float64.round b) 0) eqn:E; [|reflexivity].
  apply Qeq_bool_iff in E. contradiction.
Qed.

Lemma float_div_ok_inv (a b q : Q) :
  Float64.div a b = ok q -> ~ Float64.round b == 0 /\ q = Float64.quot a b.
Proof.
  unfold Float64.div. destruct (Qeq_bool (Float64.round b) 0) eqn:E; [discriminate|].
  intros [= <-]. split; [|reflexivity].
  intros H. apply Qeq_bool_iff in H. congruence.
Qed.

Lemma Qabs_diff_triangle (a b c : Q) : Qabs (a - c) <= Qabs (a - b) + Qabs (b - c).
Proof.
  assert (E : a - c == (a - b) + (b - c)) by ring.
  rewrite E. apply Qabs_triangle.
Qed.

Lemma Qabs_le_add (y x : Q) : Qabs y <= Qabs x + Qabs (y - x).
Proof.
  assert (E : y == x + (y - x)) by ring.
  rewrite E at 1. apply Qabs_triangle.
Qed.

Lemma Qmult_le_l_weak (x y z : Q) : 0 <= z -> x <= y -> z * x <= z * y.
Proof.
  intros Hz H. rewrite (Qmult_comm z x), (Qmult_comm z y).
  now apply Qmult_le_compat_r.
Qed.

Lemma Qabs_scale_le (v k B : Q) : Qabs v <= B -> Qabs (v * k) <= B * Qabs k.
Proof.
  intros H. rewrite Qabs_Qmult. apply Qmult_le_compat_r; [exact H | apply Qabs_nonneg].
Qed.

Lemma Qabs_inv_le (y lo : Q) : 0 < lo -> lo <= Qabs y -> Qabs (/ y) <= / lo.
Proof.
  intros Hlo H. rewrite Qabs_Qinv.
  assert (P : 0 < Qabs y) by lra.
  apply Qle_shift_inv_l; [exact Hlo|].
  assert (E : / Qabs y * lo == lo / Qabs y) by (field; lra).
  rewrite E. apply Qle_shift_div_r; lra.
Qed.

Lemma approx_refl (x : Q) : approx 0 0 x x.
Proof.
  repeat split; try apply Qle_refl.
  assert (E : x - x == 0) by ring. rewrite E. simpl. lra.
Qed.

Lemma approx_Qeq (e s y y' x x' : Q) :
  y == y' -> x == x' -> approx e s y x -> approx e s y' x'.
Proof. intros Ey Ex (He & Hs & H). repeat split; auto. now rewrite <- Ey, <- Ex. Qed.

Lemma approx_weaken (e s e' s' y x : Q) :
  approx e s y x -> e <= e' -> s <= s' -> approx e' s' y x.
Proof.
  intros (He & Hs & H) He' Hs'. pose proof (Qabs_nonneg x) as Nx.
  assert (F : e * Qabs x <= e' * Qabs x) by (apply Qmult_le_compat_r; assumption).
  repeat split; lra.
Qed.

(** What an approximation says of the size of the approximating number. *)
Lemma approx_upper (e s y x B : Q) :
  approx e s y x -> Qabs x <= B -> Qabs y <= (1 + e) * B + s.
Proof.
  intros (He & Hs & H) HB. pose proof (Qabs_le_add y x) as T.
  pose proof (Qabs_nonneg x) as Nx.
  assert (F : e * Qabs x <= e * B) by (apply Qmult_le_l_weak; lra).
  lra.
Qed.

Lemma approx_lower (e s y x lo : Q) :
  approx e s y x -> e <= 1 -> lo <= Qabs x -> (1 - e) * lo - s <= Qabs y.
Proof.
  intros (He & Hs & H) He1 Hlo.
  assert (T : Qabs x <= Qabs y + Qabs (y - x)).
  { rewrite (Qabs_Qminus y x). apply Qabs_le_add. }
  assert (F : (1 - e) * lo <= (1 - e) * Qabs x) by (apply Qmult_le_l_weak; lra).
  lra.
Qed.

(** One more rounding. *)
Lemma approx_round (e s y x : Q) :
  approx e s y x -> approx (e_round e) (s_round s) (Float64.round y) x.
Proof.
  intros (He & Hs & H).
  pose proof (round_error y) as R. fold unit_roundoff underflow_unit in R.
  pose proof (Qabs_le_add y x) as T.
  pose proof (Qabs_diff_triangle (Float64.round y) y x) as G.
  pose proof (Qabs_nonneg x) as Nx.
  assert (Hu : 0 < unit_roundoff) by apply pow2_pos.
  assert (Hn : 0 < underflow_unit) by apply pow2_pos.
  unfold approx, e_round, s_round.
  set (A := Qabs x) in *. set (D := Qabs (y - x)) in *.
  set (Rr := Qabs (Float64.round y - y)) in *. set (Y := Qabs y) in *.
  set (u := unit_roundoff) in *.
  assert (P1 : u * Y <= u * (A + D)) by (apply Qmult_le_l_weak; lra).
  assert (P2 : u * D <= u * (e * A + s)) by (apply Qmult_le_l_weak; lra).
  assert (P3 : 0 <= e * A) by (apply Qmult_le_0_compat; lra).
  assert (P4 : 0 <= u * e) by (apply Qmult_le_0_compat; lra).
  assert (P5 : 0 <= u * s) by (apply Qmult_le_0_compat; lra).
  repeat split; lra.
Qed.

(** The product of two approximations, for factors of bounded size. *)
Lemma approx_mul (e1 s1 e2 s2 a b x y Bx By : Q) :
  approx e1 s1 a x -> approx e2 s2 b y ->
  Qabs x <= Bx -> Qabs y <= By ->
  approx (e_mul e1 e2) (s_mul e1 s1 e2 s2 Bx By) (a * b) (x * y).
Proof.
  intros (He1 & Hs1 & H1) (He2 & Hs2 & H2) HBx HBy.
  pose proof (Qabs_nonneg x) as Nx. pose proof (Qabs_nonneg y) as Ny.
  pose proof (Qabs_nonneg (a - x)) as Na. pose proof (Qabs_nonneg (b - y)) as Nb.
  pose proof (Qabs_le_add b y) as Tb.
  assert (E : a * b - x * y == (a - x) * b + x * (b - y)) by ring.
  assert (G : Qabs (a * b - x * y) <= Qabs (a - x) * Qabs b + Qabs x * Qabs (b - y)).
  { rewrite E. eapply Qle_trans; [apply Qabs_triangle|]. rewrite !Qabs_Qmult. apply Qle_refl. }
  unfold approx, e_mul, s_mul. rewrite (Qabs_Qmult x y).
  set (X := Qabs x) in *. set (Y := Qabs y) in *.
  set (Da := Qabs (a - x)) in *. set (Db := Qabs (b - y)) in *. set (Ab := Qabs b) in *.
  assert (Hb : Ab <= (1 + e2) * Y + s2) by lra.
  assert (HBb : Ab <= (1 + e2) * By + s2).
  { assert (e2 * Y <= e2 * By) by (apply Qmult_le_l_weak; lra). lra. }
  assert (NAb : 0 <= Ab) by apply Qabs_nonneg.
  assert (F1 : Da * Ab <= (e1 * X + s1) * Ab) by (apply Qmult_le_compat_r; lra).
  assert (F2 : e1 * X * Ab <= e1 * X * ((1 + e2) * Y + s2)).
  { apply Qmult_le_l_weak; [|exact Hb]. apply Qmult_le_0_compat; lra. }
  assert (F3 : s1 * Ab <= s1 * ((1 + e2) * By + s2)) by (apply Qmult_le_l_weak; lra).
  assert (F4 : X * Db <= X * (e2 * Y + s2)) by (apply Qmult_le_l_weak; lra).
  assert (F5 : s2 * X <= s2 * Bx) by (apply Qmult_le_l_weak; lra).
  assert (F6 : e1 * s2 * X <= e1 * s2 * Bx).
  { apply Qmult_le_l_weak; [|lra]. apply Qmult_le_0_compat; lra. }
  assert (N1 : 0 <= e1 * e2) by (apply Qmult_le_0_compat; lra).
  assert (N2 : 0 <= By) by lra.
  assert (N3 : 0 <= Bx) by lra.
  assert (N4 : 0 <= e2 * By) by (apply Qmult_le_0_compat; lra).
  assert (N5 : 0 <= s1 * (e2 * By)) by (apply Qmult_le_0_compat; lra).
  assert (N6 : 0 <= s1 * By) by (apply Qmult_le_0_compat; lra).
  assert (N7 : 0 <= s1 * s2) by (apply Qmult_le_0_compat; lra).
  assert (N8 : 0 <= s2 * Bx) by (apply Qmult_le_0_compat; lra).
  assert (N9 : 0 <= s2 * e1 * Bx).
  { apply Qmult_le_0_compat; [|lra]. apply Qmult_le_0_compat; lra. }
  repeat split; lra.
Qed.

(** An absolute error is a relative one on numbers away from zero. *)
Lemma approx_rel (e s y x lo : Q) :
  approx e s y x -> 0 < lo -> lo <= Qabs x -> approx (e + s / lo) 0 y x.
Proof.
  intros (He & Hs & H) Hlo Hx.
  assert (Hq : 0 <= s / lo).
  { apply Qle_shift_div_l; [exact Hlo | lra]. }
  assert (Hm : s <= s / lo * Qabs x).
  { apply Qle_trans with (s / lo * lo).
    - apply Qle_lteq. right. field. lra.
    - apply Qmult_le_l_weak; assumption. }
  repeat split; lra.
Qed.

(** The inverse of an approximation with a relative error. *)
Lemma approx_inv (e a x : Q) :
  approx e 0 a x -> e < 1 -> ~ x == 0 ->
  ~ a == 0 /\ approx (e / (1 - e)) 0 (/ a) (/ x).
Proof.
  intros (He & _ & H) He1 Hx.
  pose proof (Qabs_gt_0 x Hx) as PX.
  assert (T : Qabs x <= Qabs a + Qabs (a - x)).
  { rewrite (Qabs_Qminus a x). apply Qabs_le_add. }
  assert (Pa : 0 < Qabs a).
  { assert (e * Qabs x < Qabs x).
    { rewrite <- (Qmult_1_l (Qabs x)) at 2. apply Qmult_lt_compat_r; assumption. }
    lra. }
  assert (Ha : ~ a == 0).
  { intros E. rewrite E in Pa. simpl in Pa. lra. }
  split; [exact Ha|].
  assert (Hq : 0 <= e / (1 - e)).
  { apply Qle_shift_div_l; lra. }
  repeat split; [exact Hq | apply Qle_refl |].
  assert (E : / a - / x == (x - a) / (a * x)) by (field; auto).
  rewrite E. unfold Qdiv at 1. rewrite Qabs_Qmult, Qabs_Qinv, Qabs_Qmult, (Qabs_Qminus x a).
  rewrite Qabs_Qinv, Qplus_0_r.
  set (X := Qabs x) in *. set (A := Qabs a) in *. set (D := Qabs (a - x)) in *.
  assert (PAX : 0 < A * X) by (apply Qmult_lt_0_compat; assumption).
  change (D * / (A * X)) with (D / (A * X)).
  apply Qle_shift_div_r; [exact PAX|].
  assert (E2 : e / (1 - e) * / X * (A * X) == e / (1 - e) * A) by (field; lra).
  rewrite E2.
  assert (E3 : e / (1 - e) * A == e * A / (1 - e)) by (field; lra).
  rewrite E3. apply Qle_shift_div_l; [lra|].
  assert (F : e * X <= e * (A + D)) by (apply Qmult_le_l_weak; lra).
  lra.
Qed.

(** The double nearest to a number of size [2^-500] or more is not zero,
    and its inverse is near the inverse of the number. *)
Lemma round_away_from_zero (y : Q) :
  2 ^ (-500) <= Qabs y ->
  ~ Float64.round y == 0 /\ approx e_inv 0 (/ Float64.round y) (/ y).
Proof.
  intros Hy.
  assert (Hy0 : ~ y == 0).
  { intros E. rewrite E in Hy. change (Qabs 0) with 0 in Hy.
    pose proof (pow2_pos (-500)). lra. }
  pose proof (approx_round 0 0 y y (approx_refl y)) as H.
  apply (approx_rel _ _ _ _ (2 ^ (-500))) in H; [|apply pow2_pos | exact Hy].
  apply approx_inv in H; [|closed | exact Hy0].
  destruct H as [Hr H]. split; [exact Hr|].
  destruct H as (He & Hs & H). repeat split.
  - closed.
  - apply Qle_refl.
  - eapply Qle_trans; [exact H|]. apply Qplus_le_l, Qmult_le_compat_r; [|apply Qabs_nonneg].
    closed.
Qed.

(** [a * b] on floats against the exact product. *)
Lemma approx_float_mul (e1 s1 e2 s2 a b x y Bx By : Q) :
  approx e1 s1 a x -> approx e2 s2 b y ->
  Qabs x <= Bx -> Qabs y <= By ->
  approx (e_round (e_mul (e_round e1) (e_round e2)))
    (s_round (s_mul (e_round e1) (s_round s1) (e_round e2) (s_round s2) Bx By))
    (Float64.mul a b) (x * y).
Proof.
  intros Ha Hb HBx HBy. unfold Float64.mul.
  apply approx_round, approx_mul; try assumption; now apply approx_round.
Qed.

(** [a / y] on floats against the exact quotient. *)
Lemma approx_float_quot (e s a x y Bx : Q) :
  approx e s a x -> Qabs x <= Bx -> 2 ^ (-500) <= Qabs y ->
  approx (e_round (e_mul (e_round e) e_inv))
    (s_round (s_mul (e_round e) (s_round s) e_inv 0 Bx (2 ^ 500)))
    (Float64.quot a y) (x / y).
Proof.
  intros Ha HBx Hy. unfold Float64.quot.
  destruct (round_away_from_zero y Hy) as [_ Hi].
  apply approx_round. unfold Qdiv. apply approx_mul; try assumption.
  - now apply approx_round.
  - assert (E : 2 ^ 500 == / 2 ^ (-500)) by reflexivity.
    rewrite E. apply Qabs_inv_le; [apply pow2_pos | exact Hy].
Qed.

Lemma int_small (y : Q) : Qabs y < 1 -> int y = 0%Z.
Proof.
  intros H. apply Qabs_Qlt_condition in H. destruct H as [H1 H2].
  destruct (int_truncation y) as [Hp Hn].
  destruct (Qlt_le_dec y 0) as [Hy | Hy].
  - destruct Hn as [Ha Hb]; [lra|].
    assert (L : inject_Z (int y) < inject_Z 1) by (change (inject_Z 1) with 1; lra).
    assert (U : inject_Z (-1) < inject_Z (int y)) by (change (inject_Z (-1)) with (-1); lra).
    rewrite <- Zlt_Qlt in L, U. lia.
  - destruct Hp as [Ha Hb]; [lra|].
    assert (L : inject_Z (int y) < inject_Z 1) by (change (inject_Z 1) with 1; lra).
    assert (U : inject_Z (-1) < inject_Z (int y)) by (change (inject_Z (-1)) with (-1); lra).
    rewrite <- Zlt_Qlt in L, U. lia.
Qed.

(** [int] moves toward zero. *)
Lemma int_abs_le (y : Q) : Qabs (inject_Z (int y)) <= Qabs y.
Proof.
  destruct (int_truncation y) as [Hp Hn].
  destruct (Qlt_le_dec y 0) as [Hy | Hy].
  - destruct Hn as [Ha Hb]; [lra|].
    destruct (Qlt_le_dec 0 (inject_Z (int y))) as [Hi | Hi].
    + exfalso.
      assert (L : inject_Z (int y) - 1 < inject_Z 0) by (change (inject_Z 0) with 0; lra).
      assert (E : inject_Z (int y) - 1 == inject_Z (int y - 1)).
      { unfold Z.sub. rewrite inject_Z_plus. reflexivity. }
      rewrite E in L. rewrite <- Zlt_Qlt in L.
      change 0 with (inject_Z 0) in Hi. rewrite <- Zlt_Qlt in Hi. lia.
    + rewrite (Qabs_neg y), (Qabs_neg (inject_Z (int y))); lra.
  - destruct Hp as [Ha Hb]; [lra|].
    destruct (Qlt_le_dec (inject_Z (int y)) 0) as [Hi | Hi].
    + exfalso.
      assert (L : inject_Z 0 < inject_Z (int y) + 1) by (change (inject_Z 0) with 0; lra).
      change 1 with (inject_Z 1) in L. rewrite <- inject_Z_plus in L.
      rewrite <- Zlt_Qlt in L.
      change 0 with (inject_Z 0) in Hi. rewrite <- Zlt_Qlt in Hi. lia.
    + rewrite (Qabs_pos y), (Qabs_pos (inject_Z (int y))); lra.
Qed.

(** Truncating a number computed in double precision. *)
Lemma int_of_approx (e s y x : Q) :
  approx e s y x -> e + 2 * s <= 2 ^ (-50) -> float_truncation x (int y).
Proof.
  intros (He & Hs & H) Hb.
  assert (E50 : 2 ^ (-50) == 1 # 1125899906842624) by reflexivity.
  unfold float_truncation. rewrite E50 in *.
  pose proof (Qabs_nonneg x) as Nx.
  pose proof (Qabs_le_add y x) as T.
  assert (P : 0 <= e * Qabs x) by (apply Qmult_le_0_compat; lra).
  destruct (Qlt_le_dec (Qabs x) (1 # 2)) as [Hx | Hx].
  - assert (F : e * Qabs x <= e * (1 # 2)) by (apply Qmult_le_l_weak; lra).
    rewrite (int_small y) by lra.
    assert (E : inject_Z 0 - x == - x) by ring.
    rewrite E, Qabs_opp. change (Qabs (inject_Z 0)) with 0. split; lra.
  - pose proof (int_abs_le y) as L.
    pose proof (int_error_lt_1 y) as R. rewrite Qabs_Qminus in R.
    pose proof (Qabs_diff_triangle (inject_Z (int y)) y x) as G.
    assert (F : s <= 2 * s * Qabs x).
    { assert (F' : 2 * s * (1 # 2) <= 2 * s * Qabs x) by (apply Qmult_le_l_weak; lra).
      lra. }
    assert (F2 : (e + 2 * s) * Qabs x <= (1 # 1125899906842624) * Qabs x).
    { apply Qmult_le_compat_r; lra. }
    split; lra.
Qed.

(** Placing at the truncated quotient and scaling back misses the point by
    less than one scaled pixel, up to rounding. *)
Lemma scaled_float_truncation (z v : Q) (n : Z) :
  ~ z == 0 -> float_truncation (v / z) n ->
  Qabs (z * inject_Z n - v) < Qabs z + 2 ^ (-50) * Qabs v.
Proof.
  intros Hz [_ Ht].
  assert (E : z * inject_Z n - v == z * (inject_Z n - v / z)) by (field; exact Hz).
  rewrite E, Qabs_Qmult.
  assert (Ev : Qabs v == Qabs z * Qabs (v / z)).
  { rewrite <- Qabs_Qmult. apply Qabs_wd. field. exact Hz. }
  rewrite Ev. pose proof (Qabs_gt_0 z Hz) as Pz.
  assert (F : Qabs z * Qabs (inject_Z n - v / z) < Qabs z * (1 + 2 ^ (-50) * Qabs (v / z))).
  { apply Qmult_lt_l; assumption. }
  eapply Qlt_le_trans; [exact F|]. apply Qle_lteq. right. ring.
Qed.

(** [int(1 / z * v)] on floats against [v / z]. *)
Lemma inverse_scaled_truncation (z v : Q) :
  2 ^ (-409) <= Qabs z -> Qabs v <= 2 ^ 400 ->
  ~ Float64.round z == 0
  /\ float_truncation (v / z) (int (Float64.mul (Float64.quot 1 z) v)).
Proof.
  intros Hl Hv.
  assert (Hl' : 2 ^ (-500) <= Qabs z).
  { eapply Qle_trans; [|exact Hl]. closed. }
  assert (Hz : ~ z == 0).
  { intros E. rewrite E in Hl. change (Qabs 0) with 0 in Hl.
    pose proof (pow2_pos (-409)). lra. }
  split; [apply (round_away_from_zero z Hl')|].
  assert (A : approx (2 ^ (-51)) (2 ^ (-570)) (Float64.quot 1 z) (1 / z)).
  { eapply approx_weaken;
      [eapply approx_float_quot; [apply (approx_refl 1) | apply Qle_refl | exact Hl']
      | closed | closed]. }
  assert (B : Qabs (1 / z) <= / 2 ^ (-409)).
  { unfold Qdiv. rewrite Qmult_1_l.
    apply (Qabs_inv_le z (2 ^ (-409))); [apply pow2_pos | exact Hl]. }
  eapply int_of_approx.
  - eapply approx_Qeq;
      [reflexivity | | apply (approx_float_mul _ _ _ _ _ _ _ _ _ _ A (approx_refl v) B Hv)].
    field. exact Hz.
  - closed.
Qed.

(** ** StyleParser.to_px *)


(** Each operation rounds before [int] truncates: 20.955 cm is exactly
    594 pixels at 72/2.54 pixels per cm, and [to_px] gives 593, the
    quotient computed in doubles being just below 594.  Likewise 165.1 cm
    and 41.91 cm, of 4680 and 1188 pixels. *)
Lemma to_px_cm_rounds_before_it_truncates :
  let cm := with_unit (Some "cm"%string) Sample.style in
  StyleParser.to_px cm (20955 # 1000) = Some 593
  /\ (20955 # 1000) * 72 / (254 # 100) == 594
  /\ StyleParser.to_px cm (1651 # 10) = Some 4679
  /\ (1651 # 10) * 72 / (254 # 100) == 4680
  /\ StyleParser.to_px cm (4191 # 100) = Some 1187
  /\ (4191 # 100) * 72 / (254 # 100) == 1188.
Proof. cbv zeta. repeat split; vm_compute; reflexivity. Qed.

Lemma inch_to_px_error (v : Q) :
  Qabs v <= 2 ^ 400 -> float_truncation (v * 72) (int (Float64.mul v 72)).
Proof.
  intros Hv.
  eapply int_of_approx.
  - apply (approx_float_mul _ _ _ _ _ _ _ _ (2 ^ 400) 72 (approx_refl v) (approx_refl 72));
      [exact Hv | closed].
  - closed.
Qed.

Lemma quot_to_px_error (v c : Q) :
  Qabs v <= 2 ^ 400 -> 2 ^ (-500) <= Qabs c ->
  float_truncation (v * 72 / c) (int (Float64.quot (Float64.mul v 72) c)).
Proof.
  intros Hv Hc.
  eapply int_of_approx.
  - eapply approx_float_quot; [|apply Qabs_scale_le, Hv | exact Hc].
    apply (approx_float_mul _ _ _ _ _ _ _ _ (2 ^ 400) 72 (approx_refl v) (approx_refl 72));
      [exact Hv | closed].
  - closed.
Qed.



(** ** MapnikRenderer._get_sizes *)

Lemma below_one (q : Q) : negb (Qle_bool 1 (Qred q)) = true <-> q < 1.
Proof.
  rewrite negb_true_iff, <- not_true_iff_false, Qle_bool_iff, Qred_correct.
  split; intros H.
  - apply Qnot_le_lt, H.
  - apply Qlt_not_le, H.
Qed.

(** C10, as stated, fails: with orientation 'auto' and a projected
    bounding box 3 wide and 0 high, which is not taller than wide,
    [_get_sizes] raises instead of giving the sizes as configured. *)
Lemma get_sizes_flat_box_raises :
  orientation Sample.auto_style = Some "auto"%string
  /\ merc_bbox_width Cases.flat_bbox_env = 3
  /\ merc_bbox_height Cases.flat_bbox_env = 0
  /\ MapnikRenderer._get_sizes Cases.flat_bbox_env Sample.auto_style
     = throw ZeroDivisionError
  /\ MapnikRenderer._get_sizes Cases.flat_bbox_env Sample.auto_style
     <> ok (StyleParser.PxList [Some 800; Some 600], StyleParser.PxList [Some 600; Some 400]).
Proof. repeat split. discriminate. Qed.

(** C10, amended: with orientation 'auto' and a projected bounding box
    whose height is not zero and which is taller than wide
    (width / height < 1), the paper size and the map size both have their
    two components swapped; with another orientation, or with a box whose
    height is not zero and which is not taller than wide, both are as
    configured (converted to pixels); with orientation 'auto' and a box of
    height zero [_get_sizes] raises [ZeroDivisionError]. *)
Theorem get_sizes_swaps_when_auto_and_tall (env : Env) (style : Style)
    (pw ph mw mh : Q) :
  paper_size style = [pw; ph] ->
  map_size style = [mw; mh] ->
  let px := StyleParser.to_px style in
  let auto := orientation style = Some "auto"%string in
  let tall := merc_bbox_width env / merc_bbox_height env < 1 in
  (auto /\ ~ merc_bbox_height env == 0 /\ tall ->
   MapnikRenderer._get_sizes env style
   = ok (StyleParser.PxList [px ph; px pw], StyleParser.PxList [px mh; px mw]))
  /\ (~ auto \/ (~ merc_bbox_height env == 0 /\ ~ tall) ->
      MapnikRenderer._get_sizes env style
      = ok (StyleParser.PxList [px pw; px ph], StyleParser.PxList [px mw; px mh]))
  /\ (auto /\ merc_bbox_height env == 0 ->
      MapnikRenderer._get_sizes env style = throw ZeroDivisionError).
Proof.
  intros Hp Hm px auto tall. unfold MapnikRenderer._get_sizes.
  rewrite Hp, Hm. simpl StyleParser.get_px. fold px.
  split; [|split].
  - intros (Ho & Hh & Ht). rewrite Ho. simpl String.eqb.
    rewrite (div_ok _ _ Hh). cbn [rbind ok].
    apply below_one in Ht. rewrite Ht. reflexivity.
  - intros Hn. destruct (orientation style) as [o|] eqn:Eo'; [|reflexivity].
    destruct (String.eqb o "auto") eqn:Eo; [|reflexivity].
    apply String.eqb_eq in Eo. subst o.
    destruct Hn as [Hn | (Hh & Hn)]; [now destruct Hn|].
    rewrite (div_ok _ _ Hh). cbn [rbind ok].
    destruct (negb (Qle_bool 1 (Qred (merc_bbox_width env / merc_bbox_height env)))) eqn:Et;
      [|reflexivity].
    apply below_one in Et. now destruct Hn.
  - intros (Ho & Hh). rewrite Ho. simpl String.eqb.
    rewrite (div_zero _ _ Hh). reflexivity.
Qed.

Lemma get_sizes_swaps_when_auto_and_tall_witness :
  MapnikRenderer._get_sizes Sample.portrait_env Sample.auto_style
  = ok (StyleParser.PxList [Some 600; Some 800], StyleParser.PxList [Some 400; Some 600])
  /\ MapnikRenderer._get_sizes Sample.env Sample.auto_style
     = ok (StyleParser.PxList [Some 800; Some 600], StyleParser.PxList [Some 600; Some 400])
  /\ MapnikRenderer._get_sizes Sample.portrait_env Sample.style
     = ok (StyleParser.PxList [Some 800; Some 600], StyleParser.PxList [Some 600; Some 400]).
Proof.
  destruct (get_sizes_swaps_when_auto_and_tall Sample.portrait_env Sample.auto_style
              800 600 600 400 eq_refl eq_refl) as (H1 & _ & _).
  destruct (get_sizes_swaps_when_auto_and_tall Sample.env Sample.auto_style
              800 600 600 400 eq_refl eq_refl) as (_ & H2 & _).
  destruct (get_sizes_swaps_when_auto_and_tall Sample.portrait_env Sample.style
              800 600 600 400 eq_refl eq_refl) as (_ & H3 & _).
  split; [|split].
  - apply H1. split; [reflexivity|]. split; [discriminate | reflexivity].
  - apply H2. right. split; discriminate.
  - apply H3. left. discriminate.
Defined.

(** ** The monad of drawing code *)

Lemma bind_ok {A B : Type} (m : M A) (f : A -> M B) (tr : list call) (b : B) :
  bind m f = (tr, ok b) ->
  exists tr1 a tr2, m = (tr1, ok a) /\ f a = (tr2, ok b) /\ tr = tr1 ++ tr2.
Proof.
  destruct m as [tr1 [e | a]]; simpl; [discriminate|].
  destruct (f a) as [tr2 r] eqn:E. intros H. injection H as <- ->.
  exists tr1, a, tr2. auto.
Qed.

Lemma calls_bind {A B : Type} (m : M A) (f : A -> M B) :
  calls (bind m f)
  = match outcome m with
    | inl _ => calls m
    | inr a => calls m ++ calls (f a)
    end.
Proof.
  destruct m as [tr [e | a]]; simpl; [reflexivity|].
  destruct (f a); reflexivity.
Qed.

Lemma bind_lift_throw {A B : Type} (e : exn) (f : A -> M B) :
  bind (lift (inl e)) f = ([], inl e).
Proof. reflexivity. Qed.

Lemma bind_lift_ok {A B : Type} (a : A) (f : A -> M B) :
  bind (lift (inr a)) f = f a.
Proof. unfold bind, lift. destruct (f a). reflexivity. Qed.

Lemma bind_emit {B : Type} (c : call) (f : unit -> M B) :
  bind (emit c) f = (c :: calls (f tt), outcome (f tt)).
Proof. unfold bind, emit, ok. destruct (f tt). reflexivity. Qed.

Ltac step_lift :=
  match goal with
  | |- context [bind (lift ?r) _] =>
      let e := fresh "e" in
      let a := fresh "a" in
      destruct r as [e | a]; [rewrite bind_lift_throw | rewrite bind_lift_ok]
  end.

Ltac step_lift_in H :=
  match type of H with
  | context [bind (lift ?r) _] =>
      let e := fresh "e" in
      let a := fresh "a" in
      destruct r as [e | a]; [rewrite bind_lift_throw in H | rewrite bind_lift_ok in H]
  end.

Lemma plain_ret {A : Type} (a : A) : plain_calls (ret a).
Proof. constructor. Qed.

Lemma plain_lift {A : Type} (r : result A) : plain_calls (lift r).
Proof. constructor. Qed.

Lemma plain_emit (c : call) : Cairo.plain c -> plain_calls (emit c).
Proof. intros H. repeat constructor; apply H. Qed.

Lemma plain_bind {A B : Type} (m : M A) (f : A -> M B) :
  plain_calls m -> (forall a, plain_calls (f a)) -> plain_calls (bind m f).
Proof.
  unfold plain_calls. intros Hm Hf. rewrite calls_bind.
  destruct (outcome m); [exact Hm|].
  apply Forall_app. split; [exact Hm | apply Hf].
Qed.

Lemma plain_for_each {A : Type} (f : A -> M unit) (l : list A) :
  (forall a, plain_calls (f a)) -> plain_calls (for_each f l).
Proof.
  intros Hf. induction l as [|a l IH]; simpl.
  - apply plain_ret.
  - apply plain_bind; [apply Hf | intros _; exact IH].
Qed.

Ltac plain :=
  repeat first
    [ apply plain_ret
    | apply plain_lift
    | apply plain_emit; split; discriminate
    | apply plain_bind; [|intros ?] ].

Lemma closes_restore : closes (emit Restore).
Proof.
  intros tr a H. injection H as <-. exists []. split; [reflexivity | constructor].
Qed.

Lemma closes_bind {A B : Type} (m : M A) (f : A -> M B) :
  plain_calls m -> (forall a, closes (f a)) -> closes (bind m f).
Proof.
  intros Hm Hf tr b H.
  apply bind_ok in H. destruct H as (tr1 & a & tr2 & E1 & E2 & ->).
  destruct (Hf a tr2 b E2) as (body & -> & Hb).
  exists (tr1 ++ body). split; [now rewrite app_assoc|].
  apply Forall_app. split; [|exact Hb].
  unfold plain_calls in Hm. now rewrite E1 in Hm.
Qed.

Lemma scoped_save {A : Type} (m : M A) (tr : list call) (a : A) :
  closes m -> (emit Save ;;; m) = (tr, ok a) -> Cairo.scoped tr.
Proof.
  intros Hm H. apply bind_ok in H. destruct H as (tr1 & u & tr2 & E1 & E2 & ->).
  injection E1 as <-. destruct (Hm tr2 a E2) as (body & -> & Hb).
  exists body. split; [reflexivity | exact Hb].
Qed.

Ltac closes :=
  repeat first
    [ apply closes_restore
    | apply closes_bind; [plain | intros ?] ].

(** ** The context under a sequence of calls *)

Lemma exec_app (tr1 tr2 : list call) (c : Cairo.Context) :
  Cairo.exec (tr1 ++ tr2) c = Cairo.exec tr2 (Cairo.exec tr1 c).
Proof. apply fold_left_app. Qed.

Lemma step_plain_saved (c : Cairo.Context) (k : call) :
  Cairo.plain k -> Cairo.saved (Cairo.step c k) = Cairo.saved c.
Proof.
  intros [Hs Hr]. destruct k; try reflexivity; congruence.
Qed.

Lemma exec_plain_saved (body : list call) (c : Cairo.Context) :
  Forall Cairo.plain body -> Cairo.saved (Cairo.exec body c) = Cairo.saved c.
Proof.
  intros H. revert c. induction H as [|k body Hk _ IH]; intros c; [reflexivity|].
  simpl. rewrite IH. now apply step_plain_saved.
Qed.

(** What happens between a [save()] and its [restore()] is undone. *)
Lemma exec_scoped (tr : list call) (c : Cairo.Context) :
  Cairo.scoped tr -> Cairo.exec tr c = c.
Proof.
  intros (body & -> & Hb). destruct c as [g s].
  change (Save :: body ++ [Restore]) with ([Save] ++ body ++ [Restore]).
  rewrite !exec_app.
  pose proof (exec_plain_saved body (Cairo.exec [Save] (Cairo.mkContext g s)) Hb) as Hs.
  change (Cairo.exec [Restore] ?c) with (Cairo.step c Restore).
  cbn [Cairo.step]. rewrite Hs. reflexivity.
Qed.

Lemma restores_for_each {A : Type} (f : A -> M unit) (l : list A) :
  (forall a, restores (f a)) -> restores (for_each f l).
Proof.
  intros Hf. induction l as [|a l IH]; intros tr u H c.
  - injection H as <-. reflexivity.
  - simpl in H. apply bind_ok in H. destruct H as (tr1 & u1 & tr2 & E1 & E2 & ->).
    rewrite exec_app, (Hf a tr1 u1 E1), (IH tr2 u E2). reflexivity.
Qed.

(** ** AreaLayer._draw_area *)

Lemma pop_snoc {A : Type} (l : list A) (a : A) : pop (l ++ [a]) = ok (a, l).
Proof.
  unfold pop. rewrite rev_app_distr. simpl. now rewrite removelast_last.
Qed.

Lemma draw_area_while_snoc (n : nat) (l : list Coord) (a : Coord) :
  AreaLayer._draw_area_while (S n) (l ++ [a])
  = (line_to a :: calls (AreaLayer._draw_area_while n l),
     outcome (AreaLayer._draw_area_while n l)).
Proof.
  assert (E : AreaLayer._draw_area_while (S n) (l ++ [a])
              = (p <- lift (pop (l ++ [a])) ;;
                 emit (LineTo (cx (fst p)) (cy (fst p))) ;;;
                 AreaLayer._draw_area_while n (snd p))).
  { destruct l; reflexivity. }
  rewrite E, pop_snoc. unfold lift, bind, emit, ok, calls, outcome. simpl.
  destruct (AreaLayer._draw_area_while n l) as [tr r]. reflexivity.
Qed.

(** The loop runs to the end of the list: with one round per element it
    pops every point, last first. *)
Lemma draw_area_while_all (coords : list Coord) :
  AreaLayer._draw_area_while (List.length coords) coords
  = (map line_to (rev coords), ok tt).
Proof.
  induction coords as [|a l IH] using rev_ind.
  - reflexivity.
  - rewrite length_app, Nat.add_1_r, draw_area_while_snoc, IH.
    rewrite rev_app_distr. reflexivity.
Qed.

Lemma draw_area_snoc (self : AreaLayer.t) (area : Area) (l : list Coord) (a : Coord) :
  map (Layer._convert_point (AreaLayer.renderer self)) (path area) = l ++ [a] ->
  AreaLayer._draw_area self area
  = (MoveTo (cx a) (cy a) :: map line_to (rev l) ++ [ClosePath], ok tt).
Proof.
  intros E. unfold AreaLayer._draw_area. rewrite E, pop_snoc.
  destruct (Nat.ltb (List.length (l ++ [a])) 2);
    cbn [ret lift emit bind ok fst snd app];
    rewrite draw_area_while_all; reflexivity.
Qed.

(** C2: a path without points makes [_draw_area] raise [IndexError] (the
    test for fewer than 2 points only passes, and [pop()] follows), which
    ends [AreaLayer.draw] after [save()] and [scale()]; a path of one point
    is not skipped either, it adds a closed sub-path of that single
    point. *)
Theorem draw_area_does_not_skip_short_paths (self : AreaLayer.t) (p : Q * Q) :
  AreaLayer._draw_area self (mkArea []) = ([], throw IndexError)
  /\ (let c := Layer._convert_point (AreaLayer.renderer self) p in
      AreaLayer._draw_area self (mkArea [p]) = ([MoveTo (cx c) (cy c); ClosePath], ok tt))
  /\ AreaLayer.draw (AreaLayer.mk Sample.renderer [mkArea []])
     = ([Save; Scale (1 # 2) (1 # 2)], throw IndexError)
  /\ AreaLayer.draw (AreaLayer.mk Sample.renderer [mkArea [(7, 5)]])
     = ([Save; Scale (1 # 2) (1 # 2); MoveTo 5 7; ClosePath;
         SetSourceRgba 1 0 0 1; SetLineWidth 2; Stroke; Restore], ok tt).
Proof.
  split; [reflexivity|]. split; [|split; reflexivity].
  rewrite (draw_area_snoc self (mkArea [p]) []
             (Layer._convert_point (AreaLayer.renderer self) p) eq_refl).
  reflexivity.
Qed.

(** C3, as stated, fails: for the path [[0,0],[1,2]] the path starts at the
    last converted point, not at the first. *)
Lemma draw_area_starts_at_last_point :
  let self := AreaLayer.mk Sample.renderer [] in
  let area := mkArea [(0, 0); (1, 2)] in
  (2 <= List.length (path area))%nat
  /\ calls (AreaLayer._draw_area self area) = [MoveTo 2 1; LineTo 0 0; ClosePath]
  /\ closed_polygon (map (Layer._convert_point Sample.renderer) (path area))
     = [MoveTo 0 0; LineTo 2 1; ClosePath]
  /\ calls (AreaLayer._draw_area self area)
     <> closed_polygon (map (Layer._convert_point Sample.renderer) (path area)).
Proof.
  split; [simpl; lia|]. split; [reflexivity|]. split; [reflexivity|].
  intros H. discriminate H.
Qed.

(** C3, amended: for a path of at least 2 points [_draw_area] builds the
    closed polygon through the converted points taken in reverse: the last
    converted point starts the path, each remaining point, from the one
    before last down to the first, adds a line segment, and the path is
    closed with [close_path()]. *)
Theorem draw_area_closed_polygon_reversed (self : AreaLayer.t) (area : Area) :
  (2 <= List.length (path area))%nat ->
  AreaLayer._draw_area self area
  = (closed_polygon (rev (map (Layer._convert_point (AreaLayer.renderer self)) (path area))),
     ok tt).
Proof.
  intros H.
  destruct (exists_last (l := map (Layer._convert_point (AreaLayer.renderer self)) (path area)))
    as (l & a & E).
  { intros E. apply (f_equal (@List.length Coord)) in E.
    rewrite length_map in E. simpl in E. lia. }
  rewrite (draw_area_snoc self area l a E), E, rev_app_distr. reflexivity.
Qed.

Lemma draw_area_closed_polygon_reversed_witness :
  AreaLayer._draw_area (AreaLayer.mk Sample.renderer []) Sample.square
  = ([MoveTo 0 0; LineTo 256 0; LineTo 256 256; LineTo 0 256; ClosePath], ok tt).
Proof.
  apply (draw_area_closed_polygon_reversed (AreaLayer.mk Sample.renderer []) Sample.square).
  simpl. lia.
Defined.

(** ** Save and restore around the layers *)

Lemma plain_draw_area_while (n : nat) (coords : list Coord) :
  plain_calls (AreaLayer._draw_area_while n coords).
Proof.
  revert coords. induction n as [|n IH]; intros [|c cs]; try apply plain_ret.
  cbn [AreaLayer._draw_area_while]. plain. apply IH.
Qed.

Lemma plain_draw_area (self : AreaLayer.t) (area : Area) :
  plain_calls (AreaLayer._draw_area self area).
Proof.
  unfold AreaLayer._draw_area. plain.
  - destruct (Nat.ltb _ _); plain.
  - apply plain_draw_area_while.
Qed.

Lemma scoped_area_draw (self : AreaLayer.t) (tr : list call) :
  AreaLayer.draw self = (tr, ok tt) -> Cairo.scoped tr.
Proof.
  apply scoped_save. closes. apply plain_for_each, plain_draw_area.
Qed.

Lemma scoped_copyright_draw (self : CopyrightLayer.t) (tr : list call) :
  CopyrightLayer.draw self = (tr, ok tt) -> Cairo.scoped tr.
Proof. apply scoped_save. closes. Qed.

Lemma scoped_qrcode_draw (env : Env) (self : QRCodeLayer.t) (tr : list call) :
  QRCodeLayer.draw env self = (tr, ok tt) -> Cairo.scoped tr.
Proof. apply scoped_save. closes. Qed.

Lemma scoped_tile_draw (env : Env) (self : TileLayer.t) (tr : list call) :
  TileLayer.draw env self = (tr, ok tt) -> Cairo.scoped tr.
Proof.
  unfold TileLayer.draw.
  destruct (TileLatLonBounds env _ _ _) as [[[min_lat min_lon] max_lat] max_lon].
  apply scoped_save. closes.
Qed.

Lemma restores_custom_map_draw (env : Env) (self : CustomMapLayer.t) :
  restores (CustomMapLayer.draw env self).
Proof.
  unfold CustomMapLayer.draw. intros tr u H c.
  destruct (CustomMapLayer.tileloader self) as [loader|].
  - apply bind_ok in H. destruct H as (tr1 & tiles & tr2 & E1 & E2 & ->).
    injection E1 as <- _. simpl.
    revert tr2 u E2 c. apply restores_for_each.
    intros t tr' [] Ht c. apply exec_scoped, (scoped_tile_draw env t tr' Ht).
  - injection H as <-. reflexivity.
Qed.





(** ** TileLayer *)

Lemma div_256 (a : Q) : Float64.div a 256 = ok (Float64.quot a 256).
Proof. apply float_div_ok. intros H. vm_compute in H. discriminate H. Qed.

(** The scale of a tile between two corners whose x are doubles. *)
Section TileScale.

Variables (nwx sex : Q).
Hypothesis Hnw : is_double nwx.
Hypothesis Hse : is_double sex.
Hypothesis Hlo : 2 ^ (-400) <= Qabs (sex - nwx).
Hypothesis Hhi : Qabs (sex - nwx) <= 2 ^ 400.

Let zoom := Float64.quot (Float64.sub sex nwx) 256.

Lemma tile_zoom_approx :
  exists e s, approx e s zoom ((sex - nwx) / 256) /\ e + s / 2 ^ (-408) <= 2 ^ (-50).
Proof.
  eexists _, _. split.
  - unfold zoom. eapply approx_float_quot; [|exact Hhi | closed].
    unfold Float64.sub.
    eapply approx_Qeq; [apply round_proper | reflexivity | apply approx_round, approx_refl].
    unfold is_double in Hnw, Hse. rewrite Hnw, Hse. reflexivity.
  - closed.
Qed.

Lemma tile_width_over_256 : 2 ^ (-408) <= Qabs ((sex - nwx) / 256) <= 2 ^ 392.
Proof.
  unfold Qdiv. rewrite Qabs_Qmult. change (Qabs (/ 256)) with (1 # 256).
  assert (E1 : 2 ^ (-408) == 2 ^ (-400) * (1 # 256)) by reflexivity.
  assert (E2 : 2 ^ 392 == 2 ^ 400 * (1 # 256)) by reflexivity.
  rewrite E1, E2. split; apply Qmult_le_compat_r; (assumption || discriminate).
Qed.

Lemma tile_zoom_accurate :
  Qabs (zoom - (sex - nwx) / 256) <= 2 ^ (-50) * Qabs ((sex - nwx) / 256).
Proof.
  destruct tile_zoom_approx as (e & s & Ha & Hb).
  destruct tile_width_over_256 as [Hl _].
  apply (approx_rel _ _ _ _ (2 ^ (-408))) in Ha; [|apply pow2_pos | exact Hl].
  destruct Ha as (_ & _ & Ha). rewrite Qplus_0_r in Ha.
  eapply Qle_trans; [exact Ha|]. apply Qmult_le_compat_r; [exact Hb | apply Qabs_nonneg].
Qed.

Lemma tile_zoom_size : 2 ^ (-409) <= Qabs zoom <= 2 ^ 393.
Proof.
  pose proof tile_zoom_accurate as Ha.
  destruct tile_width_over_256 as [Hl Hu].
  set (x := (sex - nwx) / 256) in *.
  assert (A : approx (2 ^ (-50)) 0 zoom x).
  { repeat split; [closed | apply Qle_refl | now rewrite Qplus_0_r]. }
  split.
  - eapply Qle_trans;
      [|apply (approx_lower _ _ _ _ (2 ^ (-408)) A); [closed | exact Hl]].
    closed.
  - eapply Qle_trans; [apply (approx_upper _ _ _ _ _ A Hu)|]. closed.
Qed.

Lemma tile_zoom_nonzero : ~ zoom == 0.
Proof.
  destruct tile_zoom_size as [Hl _]. intros E. rewrite E in Hl.
  change (Qabs 0) with 0 in Hl. pose proof (pow2_pos (-409)). lra.
Qed.

(** cairo accepts the scale. *)
Lemma tile_zoom_accepted : Cairo.accepts_scale zoom zoom = true.
Proof.
  destruct tile_zoom_size as [Hl _].
  pose proof (round_abs_lower zoom (2 ^ (-409)) (pow2_pos _) ltac:(reflexivity) Hl) as Hr.
  assert (L : 2 ^ (-818) <= Qabs (Float64.round zoom * Float64.round zoom)).
  { rewrite Qabs_Qmult. assert (E : 2 ^ (-818) == 2 ^ (-409) * 2 ^ (-409)) by reflexivity.
    rewrite E. apply Qmult_le_compat_nonneg; split; try assumption;
      apply Qlt_le_weak, pow2_pos. }
  pose proof (round_abs_lower _ (2 ^ (-818)) (pow2_pos _) ltac:(reflexivity) L) as Hm.
  unfold Cairo.accepts_scale. apply negb_true_iff.
  destruct (Qeq_bool (Float64.mul zoom zoom) 0) eqn:E; [|reflexivity].
  apply Qeq_bool_iff in E. unfold Float64.mul in E. rewrite E in Hm.
  change (Qabs 0) with 0 in Hm. pose proof (pow2_pos (-818)). lra.
Qed.

(** [int(1 / zoom * v)] against [v / zoom]. *)
Lemma tile_origin_approx (v : Q) :
  Qabs v <= 2 ^ 400 ->
  ~ Float64.round zoom == 0
  /\ float_truncation (v / zoom) (int (Float64.mul (Float64.quot 1 zoom) v)).
Proof.
  intros Hv. destruct tile_zoom_size as [Hl _].
  now apply inverse_scaled_truncation.
Qed.

End TileScale.




(** The rounding of each operation comes before the truncation: a tile
    49 view pixels wide with its north-west corner at x = 49 is placed at
    255 in the scaled space, the exact quotient 49 / (49 / 256) being
    256. *)
Lemma tile_origin_rounds_before_it_truncates :
  let img := mkImage "/tmp/tilecache/1_2_3.png" 256 256 in
  TileLayer.draw Cases.narrow_tile_env Sample.tile
  = ([Save; Scale (49 # 256) (49 # 256); SetSourceSurface img 255 104; Paint; Restore],
     ok tt)
  /\ 49 / (49 # 256) == 256.
Proof. cbv zeta. split; [vm_compute; reflexivity | reflexivity]. Qed.

(** C1: [TileLayer.draw] does not read the zoom of the style.  With zoom
    one half, the tile whose corners convert to (0, 256) and (256, 0) is
    painted at scale 1, 256 units wide, while [AreaLayer.draw] scales by
    one half and draws the square with the same corners 128 units wide. *)
Theorem tile_draw_ignores_style_zoom :
  (forall env self z, TileLayer.draw env (tile_with_zoom z self) = TileLayer.draw env self)
  /\ get_zoom Sample.renderer = 1 # 2
  /\ (let img := mkImage "/tmp/tilecache/1_2_3.png" 256 256 in
      let m := TileLayer.draw Sample.env Sample.tile in
      m = ([Save; Scale 1 1; SetSourceSurface img 0 256; Paint; Restore], ok tt)
      /\ Cairo.images (calls m) Cairo.initial = [(img, (0, 256), (1, 1))])
  /\ (let m := AreaLayer.draw (AreaLayer.mk Sample.renderer [Sample.square]) in
      m = ([Save; Scale (1 # 2) (1 # 2);
            MoveTo 0 0; LineTo 256 0; LineTo 256 256; LineTo 0 256; ClosePath;
            SetSourceRgba 1 0 0 1; SetLineWidth 2; Stroke; Restore], ok tt)
      /\ Cairo.points (calls m) Cairo.initial = [(0, 0); (128, 0); (128, 128); (0, 128)]).
Proof.
  split; [reflexivity|]. split; [reflexivity|]. split; split; reflexivity.
Qed.

Lemma int_of_str_cases (s : string) :
  int_of_str s = throw ValueError \/ exists z, int_of_str s = ok z.
Proof.
  unfold int_of_str.
  destruct (match rstrip (lstrip s) with
            | String "-"%char t => option_map Z.opp (unsigned t)
            | String "+"%char t => unsigned t
            | _ => unsigned (rstrip (lstrip s))
            end) as [z|]; [right; eauto | left; reflexivity].
Qed.

(** C4: a file name whose basename has three parts of which one is not an
    integer makes [TileLayer.__init__] raise [ValueError] instead of giving
    the address (0, 0, 0); only a name with another number of parts gives
    that address. *)
Theorem tile_init_raises_on_non_numeric_parts (renderer : Renderer)
    (filename p0 p1 p2 : string) :
  split "_" (hd EmptyString (split "." (basename filename))) = [p0; p1; p2] ->
  int_of_str p0 = throw ValueError
  \/ int_of_str p1 = throw ValueError
  \/ int_of_str p2 = throw ValueError ->
  TileLayer.__init__ renderer filename = throw ValueError.
Proof.
  intros Hp Hbad. unfold TileLayer.__init__.
  destruct (split "." (basename filename)) as [|b bs]; [discriminate Hp|].
  simpl in Hp. cbn [getitem nth_error rbind ok]. rewrite Hp.
  cbn [List.length Nat.eqb getitem nth_error rbind ok].
  destruct (int_of_str_cases p0) as [E0 | [z0 E0]]; rewrite E0; [reflexivity|].
  cbn [rbind ok].
  destruct (int_of_str_cases p1) as [E1 | [z1 E1]]; rewrite E1; [reflexivity|].
  cbn [rbind ok].
  destruct (int_of_str_cases p2) as [E2 | [z2 E2]]; rewrite E2; [reflexivity|].
  exfalso. destruct Hbad as [H | [H | H]].
  - rewrite E0 in H. discriminate H.
  - rewrite E1 in H. discriminate H.
  - rewrite E2 in H. discriminate H.
Qed.

Lemma tile_init_raises_on_non_numeric_parts_witness :
  TileLayer.__init__ Sample.renderer "/tmp/tilecache/a_b_c.png" = throw ValueError.
Proof.
  apply (tile_init_raises_on_non_numeric_parts Sample.renderer
           "/tmp/tilecache/a_b_c.png" "a" "b" "c").
  - reflexivity.
  - left. reflexivity.
Defined.

Lemma tile_init_reads_three_numbers (renderer : Renderer) :
  TileLayer.__init__ renderer "/tmp/tilecache/14_9183_11764.png"
  = ok (TileLayer.mk renderer "/tmp/tilecache/14_9183_11764.png" 14 9183 11764).
Proof. reflexivity. Qed.

(** [split] gives at least one part. *)
Lemma split_cons (sep : ascii) (s : string) : exists p ps, split sep s = p :: ps.
Proof.
  destruct s as [|c s]; simpl; [eauto|].
  destruct (Ascii.eqb c sep); [eauto|].
  destruct (split sep s); eauto.
Qed.

(** X7: a file name whose basename, up to its first dot, does not split
    into exactly three parts at the underscores gives the address
    (0, 0, 0) and never raises. *)
Lemma tile_init_other_count (renderer : Renderer) (filename : string) :
  List.length (split "_" (hd EmptyString (split "." (basename filename)))) <> 3%nat ->
  TileLayer.__init__ renderer filename = ok (TileLayer.mk renderer filename 0 0 0).
Proof.
  intros H. unfold TileLayer.__init__.
  destruct (split_cons "." (basename filename)) as (b & bs & E).
  rewrite E in *. simpl in *.
  apply Nat.eqb_neq in H. now rewrite H.
Qed.

(** ** QRCodeLayer.draw *)

(** Had the layer been built: on a map of 600 by 400 with margins [[6, 9]]
    the code is scaled by 0.3 and placed, in the scaled space, with its
    bottom-right corner [int(600 / 0.3) - 6, int(400 / 0.3) - 9] from the
    origin. *)
Lemma qrcode_draw_sample :
  let style :=
    mkStyle None [800; 600] [600; 400] (Float (1 # 2)) [10; 20] [1; 0; 0; 1] 2
      None None None None None (Some [6; 9]) in
  let self := QRCodeLayer.mk (with_zoom (1 # 2)
                (mkRenderer style (fun c => c) (mkMap 1200 800 (fun c => c))
                   (StyleParser.PxList [Some 600; Some 400])
                   (StyleParser.PxList [Some 800; Some 600]) (1 # 2))) "qr.png" in
  QRCodeLayer.draw Sample.env self
  = ([Save; Scale (3 # 10) (3 # 10);
      SetSourceSurface (mkImage "qr.png" 256 256) (2000 - 256 - 6) (1333 - 256 - 9);
      Paint; Restore], ok tt).
Proof. reflexivity. Qed.

(** ** MapnikRenderer.render *)

(** C6: when a QR source is supplied and the style has not disabled it,
    [render] raises while it builds the list of layers ([QRCodeLayer] is
    instantiated without the renderer); no layer is drawn, at most the
    translation by the margins has been made. *)
Theorem render_with_qrcode_raises (env : Env) (areas : list Area)
    (bounds : Q * Q * Q * Q) (style : Style) (c : ascii) (s : string) :
  StyleParser.get (qrcode_ style) true = true ->
  exists tr e,
    MapnikRenderer.render env areas bounds style (Some (String c s)) = (tr, throw e)
    /\ (tr = [] \/ exists mx my, tr = [Translate mx my]).
Proof.
  intros H. unfold MapnikRenderer.render.
  do 9 (step_lift; [eexists _, _; split; [reflexivity | left; reflexivity] |]).
  rewrite bind_emit.
  cbn [new]. unfold ok at 1 2 3 4. rewrite !bind_lift_ok.
  cbn [MapnikRenderer.truthy andb]. rewrite H.
  cbn [new rbind throw]. rewrite bind_lift_throw.
  eexists _, _. split; [reflexivity|]. right. eauto.
Qed.

Lemma render_with_qrcode_raises_witness :
  exists tr e,
    MapnikRenderer.render Sample.env [Sample.square] (0, 0, 1, 1) Sample.style
      (Some "qr.png"%string) = (tr, throw e)
    /\ (tr = [] \/ exists mx my, tr = [Translate mx my]).
Proof.
  apply (render_with_qrcode_raises Sample.env [Sample.square] (0, 0, 1, 1) Sample.style).
  reflexivity.
Defined.

(** C8: the render of the sample square with a QR source stops with
    [TypeError] after the translation by the margins, before any layer is
    drawn; the same render without a QR source draws the base map, the
    (empty) tile overlay, the areas and the copyright notice in order. *)
Theorem render_with_qrcode_draws_no_layer :
  MapnikRenderer.render Sample.env [Sample.square] (0, 0, 1, 1) Sample.style
    (Some "qr.png"%string)
  = ([Translate 10 20], throw TypeError)
  /\ MapnikRenderer.render Sample.env [Sample.square] (0, 0, 1, 1) Sample.style None
     = ([Translate 10 20;
         MapnikRender 1200 800;
         Save; Scale (1 # 2) (1 # 2);
         MoveTo 0 0; LineTo 256 0; LineTo 256 256; LineTo 0 256; ClosePath;
         SetSourceRgba 1 0 0 1; SetLineWidth 2; Stroke; Restore;
         Save; Scale 1 1; SelectFontFace "Sans"; SetFontSize 6; MoveTo 3 397;
         ShowText MapnikRenderer.COPYRIGHT_TEXT; Restore],
        ok (PDFSurface 800 600)).
Proof. split; reflexivity. Qed.

(** * Further properties *)

(** ** Strings and numbers as text *)

Lemma append_assoc (a b c : string) : ((a ++ b) ++ c = a ++ (b ++ c))%string.
Proof. induction a as [|x a IH]; simpl; [reflexivity | now rewrite IH]. Qed.

Lemma contains_append (c : ascii) (a b : string) :
  PyStr.contains c (a ++ b) = (PyStr.contains c a || PyStr.contains c b)%bool.
Proof.
  induction a as [|x a IH]; simpl; [reflexivity|].
  rewrite IH. now rewrite orb_assoc.
Qed.

Lemma split_whole (sep : ascii) (s : string) :
  PyStr.contains sep s = false -> split sep s = [s].
Proof.
  induction s as [|c s IH]; simpl; [reflexivity|].
  intros H. apply orb_false_iff in H. destruct H as [Hc Hs].
  rewrite Hc, (IH Hs). reflexivity.
Qed.

Lemma split_append (sep : ascii) (a b : string) :
  split sep (a ++ String sep b) = split sep a ++ split sep b.
Proof.
  induction a as [|c a IH]; simpl.
  - now rewrite Ascii.eqb_refl.
  - destruct (Ascii.eqb c sep); rewrite IH; [reflexivity|].
    destruct (split_cons sep a) as (p & ps & ->). reflexivity.
Qed.

Lemma last_app_cons {A : Type} (l : list A) (a : A) (l' : list A) (d : A) :
  last (l ++ a :: l') d = last (a :: l') d.
Proof.
  induction l as [|x l IH]; [reflexivity|].
  simpl app. rewrite <- IH. simpl. destruct (l ++ a :: l') eqn:E; [|reflexivity].
  destruct l; discriminate E.
Qed.

(** [basename] drops the directory. *)
Lemma basename_append (dir name : string) :
  PyStr.contains "/" name = false ->
  basename (dir ++ String "/" name) = name.
Proof.
  intros H. unfold basename. rewrite split_append, (split_whole _ _ H).
  now rewrite last_app_cons.
Qed.

Lemma basename_whole (name : string) :
  PyStr.contains "/" name = false -> basename name = name.
Proof.
  intros H. unfold basename. now rewrite (split_whole _ _ H).
Qed.

Ltac eval_digit :=
  match goal with
  | |- context [digit ?c] =>
      let v := eval vm_compute in (digit c) in
      change (digit c) with v; cbv iota beta
  end.

Lemma digits_uint_acc (d : Decimal.uint) (acc : positive) :
  digits (Zpos acc) (DecimalString.NilEmpty.string_of_uint d)
  = Some (Zpos (Pos.of_uint_acc d acc)).
Proof.
  revert acc. induction d; intros acc;
    cbn [DecimalString.NilEmpty.string_of_uint digits Pos.of_uint_acc];
    [reflexivity| ..];
    eval_digit; rewrite <- IHd; f_equal; lia.
Qed.

Lemma digits_uint (d : Decimal.uint) :
  digits 0%Z (DecimalString.NilEmpty.string_of_uint d) = Some (Z.of_uint d).
Proof.
  unfold Z.of_uint.
  induction d;
    cbn [DecimalString.NilEmpty.string_of_uint digits Pos.of_uint];
    [reflexivity| ..]; eval_digit;
    try (change (10 * 0 + ?k)%Z with k; rewrite digits_uint_acc; reflexivity).
  exact IHd.
Qed.

Lemma unsigned_pos_uint (p : positive) :
  unsigned (DecimalString.NilEmpty.string_of_uint (Pos.to_uint p)) = Some (Zpos p).
Proof.
  unfold unsigned.
  pose proof (digits_uint (Pos.to_uint p)) as H.
  unfold Z.of_uint in H. rewrite DecimalPos.Unsigned.of_to in H. simpl in H.
  destruct (DecimalString.NilEmpty.string_of_uint (Pos.to_uint p)); [discriminate H | exact H].
Qed.

Lemma contains_uint (c : ascii) (d : Decimal.uint) :
  PyStr.contains c (DecimalString.NilEmpty.string_of_uint d) = true ->
  PyStr.contains c "0123456789" = true.
Proof.
  induction d; cbn [DecimalString.NilEmpty.string_of_uint PyStr.contains];
    [discriminate| ..];
    intros H; apply orb_true_iff in H; destruct H as [H | H]; auto;
    apply Ascii.eqb_eq in H; subst c; reflexivity.
Qed.

Lemma contains_str (c : ascii) (n : Z) :
  PyStr.contains c (PyStr.str n) = true -> PyStr.contains c "-0123456789" = true.
Proof.
  unfold PyStr.str. destruct (Z.to_int n) as [d | d];
    cbn [DecimalString.NilEmpty.string_of_int PyStr.contains]; intros H.
  - apply contains_uint in H. apply orb_true_iff. now right.
  - apply orb_true_iff in H. destruct H as [H | H].
    + apply orb_true_iff. now left.
    + apply contains_uint in H. apply orb_true_iff. now right.
Qed.

(** A character that is not in the text of any number. *)
Lemma contains_str_other (c : ascii) (n : Z) :
  PyStr.contains c "-0123456789" = false -> PyStr.contains c (PyStr.str n) = false.
Proof.
  intros H. destruct (PyStr.contains c (PyStr.str n)) eqn:E; [|reflexivity].
  apply contains_str in E. congruence.
Qed.

Lemma strip_blanks_none (s : string) :
  (forall c, PyStr.contains c s = true -> is_space c = false) ->
  Py.rstrip (Py.lstrip s) = s.
Proof.
  intros H.
  assert (Hl : Py.lstrip s = s).
  { destruct s as [|c s]; [reflexivity|]. simpl.
    rewrite (H c); [reflexivity|]. simpl. now rewrite Ascii.eqb_refl. }
  rewrite Hl. clear Hl.
  induction s as [|c s IH]; [reflexivity|].
  simpl. rewrite IH.
  - destruct s; [|reflexivity].
    rewrite (H c); [reflexivity|]. simpl. now rewrite Ascii.eqb_refl.
  - intros c' Hc'. apply H. simpl. rewrite Hc'. apply orb_true_r.
Qed.

Lemma space_not_in_number (c : ascii) :
  PyStr.contains c "-0123456789" = true -> is_space c = false.
Proof.
  cbn [PyStr.contains]. rewrite !orb_true_iff. rewrite !Ascii.eqb_eq.
  intros H. repeat (destruct H as [H | H]; [subst c; reflexivity|]). discriminate H.
Qed.

Lemma strip_blanks_str (n : Z) : Py.rstrip (Py.lstrip (PyStr.str n)) = PyStr.str n.
Proof.
  apply strip_blanks_none. intros c H. apply space_not_in_number, (contains_str c n H).
Qed.

Lemma strip_blanks_uint (d : Decimal.uint) :
  Py.rstrip (Py.lstrip (DecimalString.NilEmpty.string_of_uint d))
  = DecimalString.NilEmpty.string_of_uint d.
Proof.
  apply strip_blanks_none. intros c H. apply space_not_in_number.
  apply contains_uint in H. apply orb_true_iff. now right.
Qed.

Lemma int_of_str_uint (d : Decimal.uint) (z : Z) :
  unsigned (DecimalString.NilEmpty.string_of_uint d) = Some z ->
  int_of_str (DecimalString.NilEmpty.string_of_uint d) = ok z.
Proof.
  intros H. unfold int_of_str. rewrite strip_blanks_uint.
  destruct d; cbn [DecimalString.NilEmpty.string_of_uint] in *;
    try (rewrite H; reflexivity).
  all: try discriminate H.
Qed.

(** [int(str(n))] is [n]. *)
Lemma int_of_str_str (n : Z) : int_of_str (PyStr.str n) = ok n.
Proof.
  destruct n as [|p|p].
  - reflexivity.
  - apply int_of_str_uint, unsigned_pos_uint.
  - unfold int_of_str. rewrite strip_blanks_str.
    unfold PyStr.str. cbn [Z.to_int DecimalString.NilEmpty.string_of_int].
    rewrite unsigned_pos_uint. reflexivity.
Qed.

(** ** TileLayer.__init__ on the names of tile files *)

Lemma name_parts (x y z : Z) :
  split "_" (PyStr.str x ++ String "_" (PyStr.str y ++ String "_" (PyStr.str z)))
  = [PyStr.str x; PyStr.str y; PyStr.str z].
Proof.
  rewrite split_append, split_append.
  rewrite !split_whole by (apply contains_str_other; reflexivity).
  reflexivity.
Qed.

Lemma name_without (c : ascii) (x y z : Z) :
  PyStr.contains c "-0123456789_" = false ->
  PyStr.contains c (PyStr.str x ++ String "_" (PyStr.str y ++ String "_" (PyStr.str z)))
  = false.
Proof.
  intros H.
  assert (Hn : PyStr.contains c "-0123456789" = false).
  { destruct (PyStr.contains c "-0123456789") eqn:E; [|reflexivity].
    rewrite <- H. change "-0123456789_"%string with ("-0123456789" ++ "_")%string.
    rewrite contains_append, E. reflexivity. }
  assert (Hu : Ascii.eqb "_" c = false).
  { destruct (Ascii.eqb "_" c) eqn:E; [|reflexivity].
    rewrite <- H. change "-0123456789_"%string with ("-0123456789" ++ "_")%string.
    rewrite contains_append. cbn [PyStr.contains]. rewrite E. now rewrite orb_true_r. }
  rewrite contains_append. cbn [PyStr.contains]. rewrite contains_append.
  cbn [PyStr.contains].
  rewrite !(contains_str_other c _ Hn), Hu. reflexivity.
Qed.

(** X6: a tile file named [str(x)_str(y)_str(z).ext], in any directory
    and with any extension free of slashes, gives back the address
    (x, y, z), negative numbers included. *)
Theorem tile_init_reads_back_address (renderer : Renderer) (dir ext : string) (x y z : Z) :
  PyStr.contains "/" ext = false ->
  let name := (PyStr.str x ++ String "_" (PyStr.str y ++ String "_" (PyStr.str z)))%string in
  let filename := (dir ++ String "/" (name ++ String "." ext))%string in
  TileLayer.__init__ renderer filename = ok (TileLayer.mk renderer filename x y z).
Proof.
  intros He name filename. unfold TileLayer.__init__.
  assert (Eb : basename filename = (name ++ String "." ext)%string).
  { apply basename_append. rewrite contains_append. cbn [PyStr.contains].
    rewrite He. unfold name. rewrite name_without by reflexivity. reflexivity. }
  rewrite Eb, split_append.
  rewrite (split_whole "." name) by (apply name_without; reflexivity).
  cbn [app getitem nth_error rbind ok].
  unfold name. rewrite name_parts.
  cbn [List.length Nat.eqb getitem nth_error rbind ok].
  rewrite !int_of_str_str. reflexivity.
Qed.

Lemma tile_init_reads_back_address_witness :
  TileLayer.__init__ Sample.renderer "/tmp/tilecache/14_9183_11764.png"
  = ok (TileLayer.mk Sample.renderer "/tmp/tilecache/14_9183_11764.png" 14 9183 11764).
Proof.
  apply (tile_init_reads_back_address Sample.renderer "/tmp/tilecache" "png" 14 9183 11764).
  reflexivity.
Defined.

(** ** googleBoundsToBox2d *)

Lemma rstrip_append (chars s post : string) :
  PyStr.rstrip chars post = EmptyString ->
  PyStr.rstrip chars (s ++ post) = PyStr.rstrip chars s.
Proof.
  intros H. induction s as [|c s IH]; simpl; [exact H | now rewrite IH].
Qed.

Lemma strip_coordinate (pre post s : string) :
  coordinate_text s ->
  PyStr.lstrip "() " pre = EmptyString ->
  PyStr.rstrip "() " post = EmptyString ->
  PyStr.strip "() " (pre ++ s ++ post) = s.
Proof.
  intros (_ & Hr & c & s' & -> & Hc) Hpre Hpost. unfold PyStr.strip.
  assert (El : PyStr.lstrip "() " (pre ++ String c s' ++ post) = (String c s' ++ post)%string).
  { clear Hr Hpost. induction pre as [|x pre IH].
    - cbn [append PyStr.lstrip]. now rewrite Hc.
    - cbn [append PyStr.lstrip] in *.
      destruct (PyStr.contains x "() "); [apply IH, Hpre | discriminate Hpre]. }
  rewrite El, rstrip_append by exact Hpost. exact Hr.
Qed.

Lemma coordinate_text_no_comma (pre post s : string) :
  coordinate_text s ->
  PyStr.contains "," pre = false -> PyStr.contains "," post = false ->
  PyStr.contains "," (pre ++ s ++ post) = false.
Proof.
  intros (Hs & _) Hpre Hpost. now rewrite !contains_append, Hpre, Hs, Hpost.
Qed.

(** X3: on the text ((a, b), (c, d)) that Google bounds print, with a, b,
    c, d coordinate texts, [googleBoundsToBox2d] converts a, b, c, d in
    this order and gives (b, a, d, c): latitude and longitude are swapped
    in each corner and brackets and blanks are dropped. *)
Theorem google_bounds_axis_order (float : string -> result Q) (a b c d : string) :
  coordinate_text a -> coordinate_text b -> coordinate_text c -> coordinate_text d ->
  googleBoundsToBox2d float
    ("((" ++ a ++ ", " ++ b ++ "), (" ++ c ++ ", " ++ d ++ "))")
  = (min_lat <~ float a ;;
     min_lng <~ float b ;;
     max_lat <~ float c ;;
     max_lng <~ float d ;;
     ok (min_lng, min_lat, max_lng, max_lat)).
Proof.
  intros Ha Hb Hc Hd. unfold googleBoundsToBox2d.
  assert (E : ("((" ++ a ++ ", " ++ b ++ "), (" ++ c ++ ", " ++ d ++ "))")%string
              = (("((" ++ a ++ "") ++ String "," ((" " ++ b ++ ")") ++ String ","
                   ((" (" ++ c ++ "") ++ String "," (" " ++ d ++ "))"))))%string).
  { cbn [append]. rewrite !append_assoc. cbn [append]. reflexivity. }
  rewrite E, !split_append.
  rewrite !split_whole by (apply coordinate_text_no_comma; auto).
  cbn [app getitem nth_error rbind ok].
  rewrite !strip_coordinate by auto. reflexivity.
Qed.

Lemma google_bounds_axis_order_witness :
  googleBoundsToBox2d Cases.float "((61.4779, 21.7688), (61.4889, 21.8237))"
  = ok (217688 # 10000, 614779 # 10000, 218237 # 10000, 614889 # 10000).
Proof.
  apply (google_bounds_axis_order Cases.float "61.4779" "21.7688" "61.4889" "21.8237");
    (split; [reflexivity | split; [reflexivity | eexists _, _; split; reflexivity]]).
Defined.

Lemma coordinate_text_digits :
  coordinate_text "61.4779" /\ coordinate_text "21.7688"
  /\ coordinate_text "61.4889" /\ coordinate_text "21.8237".
Proof.
  repeat split; try reflexivity; eexists _, _; split; reflexivity.
Qed.

(** X4: a text with fewer than three commas never gives a box: the
    function raises, whatever [float] does. *)
Theorem google_bounds_too_few_parts (float : string -> result Q) (s : string)
    (box : Q * Q * Q * Q) :
  (List.length (split "," s) < 4)%nat ->
  googleBoundsToBox2d float s <> ok box.
Proof.
  intros H. unfold googleBoundsToBox2d.
  destruct (split "," s) as [|p0 [|p1 [|p2 [|p3 ps]]]]; simpl in H; try lia;
    cbn [getitem nth_error rbind ok throw];
    repeat match goal with
           | |- context [float ?x] => destruct (float x); cbn [rbind]
           end; discriminate.
Qed.

Lemma google_bounds_too_few_parts_witness :
  googleBoundsToBox2d Cases.float "(61.4779, 21.7688)"
  <> ok (217688 # 10000, 614779 # 10000, 218237 # 10000, 614889 # 10000).
Proof.
  apply (google_bounds_too_few_parts Cases.float "(61.4779, 21.7688)").
  simpl. lia.
Defined.

(** ** More on StyleParser *)

Lemma int_monotone (q q' : Q) : q <= q' -> (int q <= int q')%Z.
Proof.
  intros H.
  destruct (Qlt_le_dec q 0) as [Hq | Hq]; destruct (Qlt_le_dec q' 0) as [Hq' | Hq'].
  - rewrite !int_nonpos by lra. unfold Qceiling.
    apply Z.opp_le_mono. rewrite !Z.opp_involutive.
    apply Qfloor_resp_le. lra.
  - rewrite (int_nonpos q) by lra. rewrite (int_nonneg q') by lra.
    apply Z.le_trans with 0%Z.
    + unfold Qceiling. apply Z.opp_nonpos_nonneg.
      change 0%Z with (Qfloor 0). apply Qfloor_resp_le. lra.
    + change 0%Z with (Qfloor 0). apply Qfloor_resp_le. lra.
  - lra.
  - rewrite !int_nonneg by lra. apply Qfloor_resp_le, H.
Qed.

Lemma inject_Z_le (a b : Z) : (a <= b)%Z -> inject_Z a <= inject_Z b.
Proof. intros H. now rewrite <- Zle_Qle. Qed.

(** The arithmetic of doubles keeps the order. *)
Lemma float_mul_monotone (a b k : Q) :
  0 <= Float64.round k -> a <= b -> Float64.mul a k <= Float64.mul b k.
Proof.
  intros Hk H. unfold Float64.mul. apply round_monotone.
  apply Qmult_le_compat_r; [apply round_monotone, H | exact Hk].
Qed.

Lemma float_quot_monotone (a b c : Q) :
  0 < Float64.round c -> a <= b -> Float64.quot a c <= Float64.quot b c.
Proof.
  intros Hc H. unfold Float64.quot. apply round_monotone.
  apply Qmult_le_compat_r; [apply round_monotone, H|].
  apply Qlt_le_weak, Qinv_lt_0_compat, Hc.
Qed.

(** X1: conversion to pixels keeps the order of lengths: under any known
    unit a longer length never converts to fewer pixels. *)
Theorem to_px_monotone (st : Style) (v w a b : Q) :
  v <= w ->
  StyleParser.to_px st v = Some a ->
  StyleParser.to_px st w = Some b ->
  a <= b.
Proof.
  intros H. unfold StyleParser.to_px,
    StyleParser._cm_to_px, StyleParser._mm_to_px, StyleParser._inch_to_px.
  assert (H72 : Float64.mul v 72 <= Float64.mul w 72).
  { apply float_mul_monotone; [|exact H]. vm_compute. discriminate. }
  destruct (String.eqb _ StyleParser.UNIT_PX).
  { intros [= <-] [= <-]. exact H. }
  destruct (String.eqb _ StyleParser.UNIT_CM).
  { intros [= <-] [= <-]. apply inject_Z_le, int_monotone.
    apply float_quot_monotone; [|exact H72]. vm_compute. reflexivity. }
  destruct (String.eqb _ StyleParser.UNIT_MM).
  { intros [= <-] [= <-]. apply inject_Z_le, int_monotone.
    apply float_quot_monotone; [|exact H72]. vm_compute. reflexivity. }
  destruct (String.eqb _ StyleParser.UNIT_INCH).
  { intros [= <-] [= <-]. apply inject_Z_le, int_monotone, H72. }
  discriminate.
Qed.

Lemma to_px_monotone_witness :
  (14 : Q) <= 28.
Proof.
  apply (to_px_monotone (with_unit (Some "cm"%string) Sample.style) (1 # 2) 1 14 28).
  - discriminate.
  - reflexivity.
  - reflexivity.
Defined.

Lemma to_px_unknown_unit (st : Style) (u : string) (v : Q) :
  unit_ st = Some u ->
  u <> "px"%string -> u <> "cm"%string -> u <> "mm"%string -> u <> "in"%string ->
  StyleParser.to_px st v = None.
Proof.
  intros Hu H1 H2 H3 H4. unfold StyleParser.to_px. rewrite Hu. cbn [StyleParser.get].
  apply String.eqb_neq in H1, H2, H3, H4.
  unfold StyleParser.UNIT_PX, StyleParser.UNIT_CM, StyleParser.UNIT_MM, StyleParser.UNIT_INCH.
  now rewrite H1, H2, H3, H4.
Qed.

Lemma item_in (l : list num) (i : nat) (w : num) :
  StyleParser.item (StyleParser.PxList l) i = ok w -> In w l.
Proof.
  unfold StyleParser.item, getitem. destruct (nth_error l i) eqn:E; [|discriminate].
  intros [= <-]. eapply nth_error_In, E.
Qed.

(** The sizes that [_get_sizes] gives are lists of converted lengths. *)
Lemma get_sizes_items (env : Env) (style : Style)
    (sizes : StyleParser.pxval * StyleParser.pxval) (i : nat) (w : num) :
  MapnikRenderer._get_sizes env style = ok sizes ->
  StyleParser.item (fst sizes) i = ok w \/ StyleParser.item (snd sizes) i = ok w ->
  exists v, w = StyleParser.to_px style v.
Proof.
  unfold MapnikRenderer._get_sizes. intros H Hi.
  assert (Hin : In w (map (StyleParser.to_px style) (paper_size style))
                \/ In w (map (StyleParser.to_px style) (map_size style))).
  { destruct (match orientation style with
              | Some o => if String.eqb o "auto" then
                            ratio <~ div (merc_bbox_width env) (merc_bbox_height env) ;;
                            ok (negb (Qle_bool 1 ratio))
                          else ok false
              | None => ok false
              end) as [e | [|]]; cbn [rbind ok StyleParser.get_px StyleParser.reverse] in H;
      try discriminate H; injection H as <-; cbn [fst snd] in Hi;
      destruct Hi as [Hi | Hi]; apply item_in in Hi; rewrite <- ?in_rev in Hi; auto. }
  destruct Hin as [Hin | Hin]; apply in_map_iff in Hin;
    destruct Hin as (v & <- & _); eauto.
Qed.

(** ** More on MapnikRenderer.render *)

(** X2: with a unit other than px, cm, mm and in, [to_px] gives [None]
    for every value, and [render] then raises before any call is made on
    the canvas. *)
Theorem render_unknown_unit_raises (env : Env) (areas : list Area)
    (bounds : Q * Q * Q * Q) (style : Style) (qrcode : option string) (u : string) :
  unit_ style = Some u ->
  u <> "px"%string -> u <> "cm"%string -> u <> "mm"%string -> u <> "in"%string ->
  (forall v, StyleParser.to_px style v = None)
  /\ exists e, MapnikRenderer.render env areas bounds style qrcode = ([], throw e).
Proof.
  intros Hu H1 H2 H3 H4.
  assert (Hn : forall v, StyleParser.to_px style v = None).
  { intros v. now apply (to_px_unknown_unit style u). }
  split; [exact Hn|]. unfold MapnikRenderer.render.
  destruct (MapnikRenderer._get_sizes env style) as [e | sizes] eqn:Es;
    [rewrite bind_lift_throw; eauto | rewrite bind_lift_ok].
  step_lift; [eauto|].
  destruct (StyleParser.item (snd sizes) 0) as [e | w] eqn:Ew;
    cbn [rbind]; [rewrite bind_lift_throw; eauto|].
  destruct (get_sizes_items env style sizes 0 w Es (or_intror Ew)) as (v & ->).
  rewrite Hn. cbn [as_num throw rbind]. rewrite bind_lift_throw. eauto.
Qed.

Lemma render_unknown_unit_raises_witness :
  exists e,
    MapnikRenderer.render Sample.env [Sample.square] (0, 0, 1, 1)
      (with_unit (Some "pt"%string) Sample.style) None = ([], throw e).
Proof.
  apply (render_unknown_unit_raises Sample.env [Sample.square] (0, 0, 1, 1)
           (with_unit (Some "pt"%string) Sample.style) None "pt");
    [reflexivity | discriminate..].
Defined.

(** X19: with a format other than pdf and svg, [render] raises before any
    call is made on the canvas. *)
Theorem render_unsupported_format_raises (env : Env) (areas : list Area)
    (bounds : Q * Q * Q * Q) (style : Style) (qrcode : option string) (f : string) :
  format style = Some f -> f <> "pdf"%string -> f <> "svg"%string ->
  exists e, MapnikRenderer.render env areas bounds style qrcode = ([], throw e).
Proof.
  intros Hf H1 H2. unfold MapnikRenderer.render.
  do 4 (step_lift; [eauto|]).
  rewrite Hf. cbn [StyleParser.get].
  apply String.eqb_neq in H1, H2. rewrite H1, H2.
  rewrite bind_lift_throw. eauto.
Qed.

Lemma render_unsupported_format_raises_witness :
  exists e,
    MapnikRenderer.render Sample.env [Sample.square] (0, 0, 1, 1)
      (with_format (Some "png"%string) Sample.style) None = ([], throw e).
Proof.
  apply (render_unsupported_format_raises Sample.env [Sample.square] (0, 0, 1, 1)
           (with_format (Some "png"%string) Sample.style) None "png");
    [reflexivity | discriminate..].
Defined.

Lemma for_each_four {A : Type} (f : A -> M unit) (a b c d : A) (tr : list call) :
  for_each f [a; b; c; d] = (tr, ok tt) ->
  exists ta tb tc td,
    f a = (ta, ok tt) /\ f b = (tb, ok tt) /\ f c = (tc, ok tt) /\ f d = (td, ok tt)
    /\ tr = ta ++ tb ++ tc ++ td.
Proof.
  cbn [for_each]. intros H.
  apply bind_ok in H. destruct H as (ta & [] & ra & Ea & H & ->).
  apply bind_ok in H. destruct H as (tb & [] & rb & Eb & H & ->).
  apply bind_ok in H. destruct H as (tc & [] & rc & Ec & H & ->).
  apply bind_ok in H. destruct H as (td & [] & rd & Ed & H & ->).
  injection H as <-. rewrite app_nil_r. exists ta, tb, tc, td. auto.
Qed.

(** What a completed render has done, layer by layer. *)
Lemma render_ok_layers (env : Env) (areas : list Area) (bounds : Q * Q * Q * Q)
    (style : Style) (qrcode : option string) (tr : list call) (surface : Surface) :
  MapnikRenderer.render env areas bounds style qrcode = (tr, ok surface) ->
  exists mx my self t1 t2 t3 t4,
    get_style self = style
    /\ draw env (Mapnik (MapnikLayer.mk self)) = (t1, ok tt)
    /\ draw env (CustomMap (CustomMapLayer.__init__ self
                              MapnikRenderer.TILE_CACHE_DIR bounds)) = (t2, ok tt)
    /\ draw env (Areas (AreaLayer.mk self areas)) = (t3, ok tt)
    /\ draw env (Copyright (CopyrightLayer.mk self MapnikRenderer.COPYRIGHT_TEXT))
       = (t4, ok tt)
    /\ tr = Translate mx my :: t1 ++ t2 ++ t3 ++ t4.
Proof.
  unfold MapnikRenderer.render. intros H.
  do 9 (step_lift_in H; [discriminate H|]).
  rewrite bind_emit in H.
  cbn [new] in H. unfold ok at 1 2 3 4 in H. rewrite !bind_lift_ok in H.
  match type of H with
  | context [bind (lift ?r) _] => destruct r as [e | layers] eqn:El
  end; [discriminate H|].
  rewrite bind_lift_ok in H.
  injection H as Hc Ho.
  destruct (for_each (draw env) layers) as [trl [e | []]] eqn:Ef; [discriminate Ho|].
  destruct (MapnikRenderer.truthy qrcode && StyleParser.get (qrcode_ style) true)%bool.
  { discriminate El. }
  injection El as <-.
  apply for_each_four in Ef. destruct Ef as (t1 & t2 & t3 & t4 & E1 & E2 & E3 & E4 & ->).
  unfold bind, ret, calls in Hc. cbn [fst] in Hc. rewrite app_nil_r in Hc. subst tr.
  eexists _, _, _, t1, t2, t3, t4.
  refine (conj _ (conj E1 (conj E2 (conj E3 (conj E4 eq_refl))))). reflexivity.
Qed.


Lemma scaled_item_ok (v : StyleParser.pxval) (i : nat) (f : Q) (n : Z) :
  (w <~ StyleParser.item v i ;; w <~ as_num w ;; ok (int (Float64.mul f w))) = inr n ->
  exists W, StyleParser.item v i = ok (Some W) /\ n = int (Float64.mul f W).
Proof.
  destruct (StyleParser.item v i) as [e | [W|]]; cbn [rbind as_num ok throw];
    try discriminate.
  intros [= <-]. eauto.
Qed.

Lemma num_ok (r : result num) (q : Q) (e : exn + num) :
  r = e -> forall a, e = inr a -> as_num a = inr q -> r = ok (Some q).
Proof.
  intros -> a -> H. destruct a; [|discriminate H]. now injection H as <-.
Qed.

(** What a completed render has computed and drawn. *)
Lemma render_ok_inv (env : Env) (areas : list Area) (bounds : Q * Q * Q * Q)
    (style : Style) (qrcode : option string) (tr : list call) (surface : Surface) :
  MapnikRenderer.render env areas bounds style qrcode = (tr, ok surface) ->
  exists sizes zoom_f W H mx my t1 t2 t3 t4,
    MapnikRenderer._get_sizes env style = ok sizes
    /\ reciprocal (zoom style) = ok zoom_f
    /\ StyleParser.item (snd sizes) 0 = ok (Some W)
    /\ StyleParser.item (snd sizes) 1 = ok (Some H)
    /\ StyleParser.item (StyleParser.get_px style (StyleParser.Values (margin style))) 0
       = ok (Some mx)
    /\ StyleParser.item (StyleParser.get_px style (StyleParser.Values (margin style))) 1
       = ok (Some my)
    /\ let mw := int (Float64.mul zoom_f W) in
       let mh := int (Float64.mul zoom_f H) in
       let self :=
         mkRenderer style (proj_forward env) (mkMap mw mh (view_forward env mw mh))
           (snd sizes) (fst sizes) (value (zoom style)) in
       draw env (Mapnik (MapnikLayer.mk self)) = (t1, ok tt)
       /\ draw env (CustomMap (CustomMapLayer.__init__ self
                                 MapnikRenderer.TILE_CACHE_DIR bounds)) = (t2, ok tt)
       /\ draw env (Areas (AreaLayer.mk self areas)) = (t3, ok tt)
       /\ draw env (Copyright (CopyrightLayer.mk self MapnikRenderer.COPYRIGHT_TEXT))
          = (t4, ok tt)
       /\ tr = Translate mx my :: t1 ++ t2 ++ t3 ++ t4
       /\ (String.eqb (StyleParser.get (format style) "pdf"%string) "pdf"%string = false ->
           surface = SVGSurface mw mh)
       /\ (String.eqb (StyleParser.get (format style) "pdf"%string) "pdf"%string = true ->
           exists pw ph,
             StyleParser.item (fst sizes) 0 = ok (Some pw)
             /\ StyleParser.item (fst sizes) 1 = ok (Some ph)
             /\ surface = PDFSurface pw ph).
Proof.
  unfold MapnikRenderer.render. intros H.
  destruct (MapnikRenderer._get_sizes env style) as [e | sizes] eqn:Es;
    [discriminate H | rewrite bind_lift_ok in H].
  destruct (reciprocal (zoom style)) as [e | zoom_f] eqn:Ez;
    [discriminate H | rewrite bind_lift_ok in H].
  match type of H with
  | context [bind (lift ?r) _] => destruct r as [e | mw] eqn:Ew
  end; [discriminate H | rewrite bind_lift_ok in H].
  match type of H with
  | context [bind (lift ?r) _] => destruct r as [e | mh] eqn:Eh
  end; [discriminate H | rewrite bind_lift_ok in H].
  apply scaled_item_ok in Ew, Eh.
  destruct Ew as (W & EW & ->). destruct Eh as (Ht & EH & ->).
  match type of H with
  | context [bind (lift ?r) _] => destruct r as [e | sf] eqn:Esf
  end; [discriminate H | rewrite bind_lift_ok in H].
  match type of H with
  | context [bind (lift ?r) _] => destruct r as [e | mx] eqn:Emx
  end; [discriminate H | rewrite bind_lift_ok in H].
  match type of H with
  | context [bind (lift ?r) _] => destruct r as [e | my] eqn:Emy
  end; [discriminate H | rewrite bind_lift_ok in H].
  destruct mx as [mx|]; [|discriminate H].
  destruct my as [my|]; [|discriminate H].
  cbn [as_num ok] in H. rewrite !bind_lift_ok in H.
  rewrite bind_emit in H.
  cbn [new] in H. unfold ok at 1 2 3 4 in H. rewrite !bind_lift_ok in H.
  match type of H with
  | context [bind (lift ?r) _] => destruct r as [e | layers] eqn:El
  end; [discriminate H|].
  rewrite bind_lift_ok in H.
  injection H as Hc Ho.
  destruct (for_each (draw env) layers) as [trl [e | []]] eqn:Ef; [discriminate Ho|].
  destruct (MapnikRenderer.truthy qrcode && StyleParser.get (qrcode_ style) true)%bool.
  { discriminate El. }
  injection El as <-.
  apply for_each_four in Ef. destruct Ef as (t1 & t2 & t3 & t4 & E1 & E2 & E3 & E4 & ->).
  unfold bind, ret, calls in Hc. cbn [fst] in Hc. rewrite app_nil_r in Hc. subst tr.
  unfold bind, ret, outcome in Ho. cbn [snd] in Ho. injection Ho as <-.
  exists sizes, zoom_f, W, Ht, mx, my, t1, t2, t3, t4.
  repeat (split; [assumption || reflexivity|]).
  destruct (String.eqb _ "pdf").
  - split; [discriminate|]. intros _.
    destruct (StyleParser.item (fst sizes) 0) as [e | [pw|]];
      cbn [rbind as_num throw ok] in Esf; try discriminate Esf;
      destruct (StyleParser.item (fst sizes) 1) as [e | [ph|]];
      cbn [rbind as_num throw ok] in Esf; try discriminate Esf.
    injection Esf as <-. eauto.
  - split; [|discriminate]. intros _.
    destruct (String.eqb _ "svg"); [|discriminate Esf].
    injection Esf as <-. reflexivity.
Qed.

(** X17: after a completed render the context is as after the
    translation by the margins alone: no layer leaves a scale or a paint
    setting behind (the base renderer taken to leave the context as it
    found it). *)
Theorem render_leaves_only_margin_translation (env : Env) (areas : list Area)
    (bounds : Q * Q * Q * Q) (style : Style) (qrcode : option string)
    (tr : list call) (surface : Surface) :
  MapnikRenderer.render env areas bounds style qrcode = (tr, ok surface) ->
  exists mx my,
    StyleParser.item (StyleParser.get_px style (StyleParser.Values (margin style))) 0
    = ok (Some mx)
    /\ StyleParser.item (StyleParser.get_px style (StyleParser.Values (margin style))) 1
       = ok (Some my)
    /\ forall c, Cairo.exec tr c = Cairo.exec [Translate mx my] c.
Proof.
  intros H. apply render_ok_inv in H.
  destruct H as (sizes & zoom_f & W & Ht & mx & my & t1 & t2 & t3 & t4
                 & _ & _ & _ & _ & Emx & Emy & E1 & E2 & E3 & E4 & -> & _ & _).
  exists mx, my. split; [exact Emx|]. split; [exact Emy|]. intros c.
  change (Translate mx my :: t1 ++ t2 ++ t3 ++ t4)
    with ([Translate mx my] ++ t1 ++ t2 ++ t3 ++ t4).
  rewrite !exec_app.
  cbn [draw] in E1, E2, E3, E4.
  injection E1 as <-.
  rewrite (exec_scoped t4) by (eapply scoped_copyright_draw, E4).
  rewrite (exec_scoped t3) by (eapply scoped_area_draw, E3).
  rewrite (restores_custom_map_draw _ _ _ _ E2). reflexivity.
Qed.

Lemma render_leaves_only_margin_translation_witness :
  exists mx my,
    StyleParser.item
      (StyleParser.get_px Sample.style (StyleParser.Values (margin Sample.style))) 0
    = ok (Some mx)
    /\ StyleParser.item
         (StyleParser.get_px Sample.style (StyleParser.Values (margin Sample.style))) 1
       = ok (Some my)
    /\ forall c,
         Cairo.exec
           (calls (MapnikRenderer.render Sample.env [Sample.square] (0, 0, 1, 1)
                     Sample.style None)) c
         = Cairo.exec [Translate mx my] c.
Proof.
  apply (render_leaves_only_margin_translation Sample.env [Sample.square] (0, 0, 1, 1)
           Sample.style None _ (PDFSurface 800 600)).
  reflexivity.
Defined.

(** X16: a render that completes has made, after the translation by the
    margins of the style, the calls of the base map, of the tile overlay,
    of the areas and of the copyright notice, in this order and once
    each, all four built on the one renderer that holds the style, the
    projection, the map of the oversampled size, the sizes and the
    zoom. *)
Lemma render_layer_order (env : Env) (areas : list Area) (bounds : Q * Q * Q * Q)
    (style : Style) (qrcode : option string) (tr : list call) (surface : Surface) :
  MapnikRenderer.render env areas bounds style qrcode = (tr, ok surface) ->
  exists sizes zoom_f W H mx my,
    MapnikRenderer._get_sizes env style = ok sizes
    /\ reciprocal (zoom style) = ok zoom_f
    /\ StyleParser.item (snd sizes) 0 = ok (Some W)
    /\ StyleParser.item (snd sizes) 1 = ok (Some H)
    /\ StyleParser.item (StyleParser.get_px style (StyleParser.Values (margin style))) 0
       = ok (Some mx)
    /\ StyleParser.item (StyleParser.get_px style (StyleParser.Values (margin style))) 1
       = ok (Some my)
    /\ let mw := int (Float64.mul zoom_f W) in
       let mh := int (Float64.mul zoom_f H) in
       let self :=
         mkRenderer style (proj_forward env) (mkMap mw mh (view_forward env mw mh))
           (snd sizes) (fst sizes) (value (zoom style)) in
       tr = Translate mx my
            :: calls (draw env (Mapnik (MapnikLayer.mk self)))
            ++ calls (draw env (CustomMap (CustomMapLayer.__init__ self
                                             MapnikRenderer.TILE_CACHE_DIR bounds)))
            ++ calls (draw env (Areas (AreaLayer.mk self areas)))
            ++ calls (draw env (Copyright (CopyrightLayer.mk self
                                             MapnikRenderer.COPYRIGHT_TEXT))).
Proof.
  intros Hr. apply render_ok_inv in Hr.
  destruct Hr as (sizes & zoom_f & W & H & mx & my & t1 & t2 & t3 & t4
                  & Es & Ez & EW & EH & Emx & Emy & E1 & E2 & E3 & E4 & -> & _).
  exists sizes, zoom_f, W, H, mx, my.
  repeat (split; [assumption|]).
  cbv zeta. now rewrite E1, E2, E3, E4.
Qed.

Lemma render_layer_order_witness :
  exists sizes zoom_f W H mx my,
    MapnikRenderer._get_sizes Sample.env Sample.style = ok sizes
    /\ reciprocal (zoom Sample.style) = ok zoom_f
    /\ StyleParser.item (snd sizes) 0 = ok (Some W)
    /\ StyleParser.item (snd sizes) 1 = ok (Some H)
    /\ StyleParser.item
         (StyleParser.get_px Sample.style (StyleParser.Values (margin Sample.style))) 0
       = ok (Some mx)
    /\ StyleParser.item
         (StyleParser.get_px Sample.style (StyleParser.Values (margin Sample.style))) 1
       = ok (Some my)
    /\ let mw := int (Float64.mul zoom_f W) in
       let mh := int (Float64.mul zoom_f H) in
       let self :=
         mkRenderer Sample.style (proj_forward Sample.env)
           (mkMap mw mh (view_forward Sample.env mw mh))
           (snd sizes) (fst sizes) (value (zoom Sample.style)) in
       calls (MapnikRenderer.render Sample.env [Sample.square] (0, 0, 1, 1)
                Sample.style None)
       = Translate mx my
           :: calls (draw Sample.env (Mapnik (MapnikLayer.mk self)))
           ++ calls (draw Sample.env (CustomMap (CustomMapLayer.__init__ self
                                                   MapnikRenderer.TILE_CACHE_DIR (0, 0, 1, 1))))
           ++ calls (draw Sample.env (Areas (AreaLayer.mk self [Sample.square])))
           ++ calls (draw Sample.env (Copyright (CopyrightLayer.mk self
                                                   MapnikRenderer.COPYRIGHT_TEXT))).
Proof.
  apply (render_layer_order Sample.env [Sample.square] (0, 0, 1, 1) Sample.style None
           _ (PDFSurface 800 600)).
  vm_compute. reflexivity.
Defined.

Lemma get_sizes_plain (env : Env) (style : Style) :
  orientation style = None ->
  MapnikRenderer._get_sizes env style
  = ok (StyleParser.get_px style (StyleParser.Values (paper_size style)),
        StyleParser.get_px style (StyleParser.Values (map_size style))).
Proof. intros H. unfold MapnikRenderer._get_sizes. now rewrite H. Qed.

(** X18: in a completed render of a style in px without orientation and
    with a float zoom, the base map is rendered right after the
    translation by the margins, on a map of [int(1 / zoom * map_width)]
    by [int(1 / zoom * map_height)] pixels, computed in doubles: the map
    size divided by the zoom and truncated, up to the fraction [2^-50] of
    the quotient.  An svg surface has that size, a pdf surface the paper
    size.  For a zoom of size [2^-400] or more and a map size up to
    [2^400]. *)
Theorem render_base_map_is_oversampled (env : Env) (areas : list Area)
    (bounds : Q * Q * Q * Q) (style : Style) (qrcode : option string)
    (tr : list call) (surface : Surface) (z W H pw ph : Q) (rest rest_p : list Q) :
  unit_ style = None ->
  orientation style = None ->
  zoom style = Float z ->
  map_size style = W :: H :: rest ->
  paper_size style = pw :: ph :: rest_p ->
  2 ^ (-400) <= Qabs z -> Qabs W <= 2 ^ 400 -> Qabs H <= 2 ^ 400 ->
  MapnikRenderer.render env areas bounds style qrcode = (tr, ok surface) ->
  exists (mx my : Q) (w h : Z) (rest' : list call),
    tr = Translate mx my :: MapnikRender w h :: rest'
    /\ nth_error (margin style) 0 = Some mx
    /\ nth_error (margin style) 1 = Some my
    /\ w = int (Float64.mul (Float64.quot 1 z) W)
    /\ h = int (Float64.mul (Float64.quot 1 z) H)
    /\ float_truncation (W / z) w
    /\ float_truncation (H / z) h
    /\ (format style = Some "svg"%string -> surface = SVGSurface w h)
    /\ (format style = None \/ format style = Some "pdf"%string ->
        surface = PDFSurface pw ph).
Proof.
  intros Hu Ho Hz Hm Hp Lz BW BH Hr. apply render_ok_inv in Hr.
  destruct Hr as (sizes & zoom_f & W' & H' & mx & my & t1 & t2 & t3 & t4
                  & Es & Ez & EW & EH & Emx & Emy & E1 & _ & _ & _ & -> & Hsvg & Hpdf).
  rewrite (get_sizes_plain env style Ho) in Es. injection Es as <-.
  cbn [fst snd StyleParser.get_px] in EW, EH, Hpdf, Emx, Emy.
  rewrite Hm in EW, EH. rewrite Hp in Hpdf.
  unfold StyleParser.item, getitem in Emx, Emy. rewrite !nth_error_map in Emx, Emy.
  unfold StyleParser.to_px in EW, EH, Hpdf, Emx, Emy. rewrite Hu in EW, EH, Hpdf, Emx, Emy.
  cbn in EW, EH. injection EW as <-. injection EH as <-.
  rewrite Hz in Ez. cbn [reciprocal] in Ez.
  apply float_div_ok_inv in Ez. destruct Ez as (_ & ->).
  cbn [draw MapnikLayer.draw MapnikLayer.renderer get_map width height] in E1.
  injection E1 as <-.
  assert (Lz' : 2 ^ (-409) <= Qabs z) by (eapply Qle_trans; [|exact Lz]; closed).
  eexists mx, my, _, _, _. split; [reflexivity|].
  split. { destruct (nth_error (margin style) 0); now inversion Emx. }
  split. { destruct (nth_error (margin style) 1); now inversion Emy. }
  split; [reflexivity|]. split; [reflexivity|].
  split; [apply inverse_scaled_truncation; assumption|].
  split; [apply inverse_scaled_truncation; assumption|].
  split.
  - intros Hf. apply Hsvg. rewrite Hf. reflexivity.
  - intros Hf.
    assert (Ef : String.eqb (StyleParser.get (format style) "pdf"%string) "pdf"%string = true).
    { destruct Hf as [Hf | Hf]; rewrite Hf; reflexivity. }
    destruct (Hpdf Ef) as (pw' & ph' & E0 & E1 & ->).
    cbn in E0, E1. injection E0 as <-. injection E1 as <-. reflexivity.
Qed.

Lemma render_base_map_is_oversampled_witness :
  exists (mx my : Q) (w h : Z) (rest' : list call),
    calls (MapnikRenderer.render Sample.env [Sample.square] (0, 0, 1, 1) Sample.style None)
    = Translate mx my :: MapnikRender w h :: rest'
    /\ nth_error (margin Sample.style) 0 = Some mx
    /\ nth_error (margin Sample.style) 1 = Some my
    /\ w = 1200%Z
    /\ h = 800%Z
    /\ float_truncation (600 / (1 # 2)) w
    /\ float_truncation (400 / (1 # 2)) h
    /\ (format Sample.style = Some "svg"%string ->
        PDFSurface 800 600 = SVGSurface w h)
    /\ (format Sample.style = None \/ format Sample.style = Some "pdf"%string ->
        PDFSurface 800 600 = PDFSurface 800 600).
Proof.
  apply (render_base_map_is_oversampled Sample.env [Sample.square] (0, 0, 1, 1)
           Sample.style None _ (PDFSurface 800 600) (1 # 2) 600 400 800 600 [] []);
    try reflexivity; try (apply Qle_bool_iff; vm_compute; reflexivity).
Defined.

(** The rounding of each operation comes before the truncation here as
    well: at zoom 0.17 a map 595 wide is rendered on 3499 pixels, the
    exact quotient 595 / 0.17 being 3500. *)
Lemma render_map_size_rounds_before_it_truncates :
  let style :=
    mkStyle None [800; 600] [595; 400] (Float (17 # 100)) [10; 20] [1; 0; 0; 1] 2
      None None None None None None in
  exists rest',
    calls (MapnikRenderer.render Sample.env [] (0, 0, 1, 1) style None)
    = Translate 10 20 :: MapnikRender 3499 2352 :: rest'
    /\ 595 / (17 # 100) == 3500.
Proof. cbv zeta. eexists. split; [vm_compute; reflexivity | reflexivity]. Qed.

(** X20: a zoom written as an int of 2 or more makes [1 / zoom] the floor
    division of Python 2, which is 0: a render that completes has rendered
    the base map on a map of 0 by 0 pixels. *)
Theorem render_int_zoom_gives_empty_map (env : Env) (areas : list Area)
    (bounds : Q * Q * Q * Q) (style : Style) (qrcode : option string)
    (tr : list call) (surface : Surface) (n : Z) :
  zoom style = Int n ->
  (2 <= n)%Z ->
  MapnikRenderer.render env areas bounds style qrcode = (tr, ok surface) ->
  exists (mx my : Q) (rest' : list call),
    tr = Translate mx my :: MapnikRender 0 0 :: rest'.
Proof.
  intros Hz Hn Hr. apply render_ok_inv in Hr.
  destruct Hr as (sizes & zoom_f & W & H & mx & my & t1 & t2 & t3 & t4
                  & _ & Ez & _ & _ & _ & _ & E1 & _ & _ & _ & -> & _).
  rewrite Hz in Ez. cbn [reciprocal] in Ez.
  destruct (Z.eqb_spec n 0) as [E0 | _]; [lia|].
  injection Ez as <-. rewrite (Z.div_small 1 n) in E1 by lia.
  cbn [draw MapnikLayer.draw MapnikLayer.renderer get_map width height] in E1.
  assert (E : forall v, int (Float64.mul (inject_Z 0) v) = 0%Z).
  { intros v. unfold Float64.mul. apply (int_Qeq _ 0).
    transitivity (Float64.round 0); [|reflexivity].
    apply round_proper. change (Float64.round (inject_Z 0)) with 0. ring. }
  rewrite !E in E1. injection E1 as <-.
  eexists mx, my, _. reflexivity.
Qed.

Lemma render_int_zoom_gives_empty_map_witness :
  let style :=
    mkStyle None [800; 600] [600; 400] (Int 2) [10; 20] [1; 0; 0; 1] 2
      None None None None None None in
  exists (mx my : Q) (rest' : list call),
    calls (MapnikRenderer.render Sample.env [Sample.square] (0, 0, 1, 1) style None)
    = Translate mx my :: MapnikRender 0 0 :: rest'.
Proof.
  intros style.
  apply (render_int_zoom_gives_empty_map Sample.env [Sample.square] (0, 0, 1, 1) style None
           _ (PDFSurface 800 600) 2).
  - reflexivity.
  - lia.
  - vm_compute. reflexivity.
Defined.

(** ** CustomMapLayer *)

(** X9: a style without [map_tiles], or with an indexing other than
    google, tms and f, makes the tile overlay draw nothing and complete. *)
Theorem custom_map_without_loader_draws_nothing (env : Env) (renderer : Renderer)
    (cache_dir : string) (bounds : Q * Q * Q * Q) :
  (map_tiles (get_style renderer) = None
   \/ exists o, map_tiles (get_style renderer) = Some o
                /\ indexing o <> "google"%string
                /\ indexing o <> "tms"%string
                /\ indexing o <> "f"%string) ->
  CustomMapLayer.draw env (CustomMapLayer.__init__ renderer cache_dir bounds)
  = ([], ok tt).
Proof.
  intros [H | (o & H & H1 & H2 & H3)]; unfold CustomMapLayer.__init__; rewrite H.
  - reflexivity.
  - destruct bounds as [[[min_lon min_lat] max_lon] max_lat].
    apply String.eqb_neq in H1, H2, H3. rewrite H1, H2, H3. reflexivity.
Qed.

Lemma custom_map_without_loader_draws_nothing_witness :
  CustomMapLayer.draw Sample.env
    (CustomMapLayer.__init__ Sample.renderer "/tmp/tilecache" (0, 0, 1, 1))
  = ([], ok tt).
Proof.
  apply (custom_map_without_loader_draws_nothing Sample.env Sample.renderer
           "/tmp/tilecache" (0, 0, 1, 1)).
  left. reflexivity.
Defined.

Lemma collect_throw {A B : Type} (f : A -> result B) (l : list A) (a : A) (e : exn) :
  In a l -> f a = throw e -> exists e', collect f l = throw e'.
Proof.
  induction l as [|x l IH]; [contradiction|].
  intros [-> | Hin] Hf; cbn [collect].
  - rewrite Hf. cbn [rbind throw]. eauto.
  - destruct (f x) as [e0 | b]; cbn [rbind]; [eauto|].
    destruct (IH Hin Hf) as (e' & ->). cbn [rbind throw]. eauto.
Qed.

Lemma collect_length {A B : Type} (f : A -> result B) (l : list A) (bs : list B) :
  collect f l = ok bs -> List.length bs = List.length l.
Proof.
  revert bs. induction l as [|x l IH]; intros bs; cbn [collect].
  - intros [= <-]. reflexivity.
  - destruct (f x) as [e | b]; cbn [rbind]; [discriminate|].
    destruct (collect f l) as [e | bs']; cbn [rbind]; [discriminate|].
    intros [= <-]. simpl. now rewrite (IH bs' eq_refl).
Qed.

(** X10: the tiles are all built before the first is drawn: if one of the
    downloaded file names makes [TileLayer.__init__] raise,
    [CustomMapLayer.draw] raises with no call made on the canvas. *)
Theorem custom_map_bad_name_draws_no_tile (env : Env) (self : CustomMapLayer.t)
    (loader : TileLoader) (o : MapTiles) (f : string) (e : exn) :
  CustomMapLayer.tileloader self = Some loader ->
  CustomMapLayer.options self = Some o ->
  In f (download env loader (CustomMapLayer.cache_dir self) (url o) (http_headers o)) ->
  TileLayer.__init__ (CustomMapLayer.renderer self) f = throw e ->
  exists e', CustomMapLayer.draw env self = ([], throw e').
Proof.
  intros Hl Ho Hin Hf. unfold CustomMapLayer.draw, CustomMapLayer._get_tiles.
  rewrite Hl, Ho.
  destruct (collect_throw _ _ f e Hin Hf) as (e' & ->).
  rewrite bind_lift_throw. eauto.
Qed.

Lemma custom_map_bad_name_draws_no_tile_witness :
  exists e', CustomMapLayer.draw Cases.bad_name_env Cases.tiled_layer = ([], throw e').
Proof.
  apply (custom_map_bad_name_draws_no_tile Cases.bad_name_env Cases.tiled_layer
           (mkTileLoader Google 0 0 1 1 512) (mkMapTiles "google" "http://tiles/" [])
           "/tmp/tilecache/a_b_c.png" ValueError).
  - reflexivity.
  - reflexivity.
  - right. left. reflexivity.
  - reflexivity.
Defined.

(** The calls of a tile that has been drawn. *)
Lemma tile_draw_ok_calls (env : Env) (self : TileLayer.t) (tr : list call) :
  TileLayer.draw env self = (tr, ok tt) ->
  exists img zoom px py,
    tr = [Save; Scale zoom zoom; SetSourceSurface img px py; Paint; Restore].
Proof.
  unfold TileLayer.draw.
  destruct (TileLatLonBounds env _ _ _) as [[[min_lat min_lon] max_lat] max_lon].
  rewrite bind_emit.
  destruct (create_from_png env _) as [img|]; [rewrite bind_lift_ok | discriminate].
  rewrite div_256, bind_lift_ok.
  destruct (Cairo.accepts_scale _ _); [rewrite bind_lift_ok | discriminate].
  rewrite bind_emit.
  destruct (Float64.div 1 _) as [e | inv]; [discriminate|].
  cbn [rbind ok]. unfold ok. rewrite !bind_lift_ok.
  intros [= <-]. eauto.
Qed.

Lemma for_each_count {A : Type} (f : A -> M unit) (p : call -> bool) (l : list A)
    (tr : list call) :
  (forall a tr', f a = (tr', ok tt) -> List.length (filter p tr') = 1%nat) ->
  for_each f l = (tr, ok tt) ->
  List.length (filter p tr) = List.length l.
Proof.
  intros Hf. revert tr. induction l as [|a l IH]; intros tr H.
  - now injection H as <-.
  - cbn [for_each] in H. apply bind_ok in H.
    destruct H as (tr1 & [] & tr2 & E1 & E2 & ->).
    rewrite filter_app, length_app, (Hf a tr1 E1), (IH tr2 E2). reflexivity.
Qed.

(** X11: a tile overlay that completes has painted exactly one raster per
    file that the loader returned. *)
Theorem custom_map_paints_each_file_once (env : Env) (self : CustomMapLayer.t)
    (loader : TileLoader) (o : MapTiles) (tr : list call) :
  CustomMapLayer.tileloader self = Some loader ->
  CustomMapLayer.options self = Some o ->
  CustomMapLayer.draw env self = (tr, ok tt) ->
  List.length (filter is_paint tr)
  = List.length (download env loader (CustomMapLayer.cache_dir self) (url o) (http_headers o)).
Proof.
  intros Hl Ho. unfold CustomMapLayer.draw, CustomMapLayer._get_tiles.
  rewrite Hl, Ho.
  destruct (collect _ _) as [e | tiles] eqn:Ec; [discriminate|].
  rewrite bind_lift_ok. intros H.
  rewrite <- (collect_length _ _ _ Ec).
  apply (for_each_count (TileLayer.draw env) is_paint tiles tr); [|exact H].
  intros t tr' Ht. apply tile_draw_ok_calls in Ht.
  destruct Ht as (img & zoom & px & py & ->). reflexivity.
Qed.

Lemma custom_map_paints_each_file_once_witness :
  List.length (filter is_paint (calls (CustomMapLayer.draw Sample.env Cases.tiled_layer)))
  = 1%nat.
Proof.
  apply (custom_map_paints_each_file_once Sample.env Cases.tiled_layer
           (mkTileLoader Google 0 0 1 1 512) (mkMapTiles "google" "http://tiles/" [])
           (calls (CustomMapLayer.draw Sample.env Cases.tiled_layer)));
    reflexivity.
Defined.

(** ** TileLayer.draw, when it cannot draw *)

(** X8: when the PNG of a tile cannot be decoded, [TileLayer.draw] raises
    after its [save()]: the only call made is that save, which stays on the
    stack of the context. *)
Theorem tile_draw_undecodable_png (env : Env) (self : TileLayer.t) :
  create_from_png env (TileLayer.filename self) = None ->
  exists e,
    TileLayer.draw env self = ([Save], throw e)
    /\ forall c, Cairo.exec (calls (TileLayer.draw env self)) c
                 = Cairo.mkContext (Cairo.gstate c) (Cairo.gstate c :: Cairo.saved c).
Proof.
  intros Hi. exists CairoError.
  assert (E : TileLayer.draw env self = ([Save], throw CairoError)).
  { unfold TileLayer.draw.
    destruct (TileLatLonBounds env _ _ _) as [[[min_lat min_lon] max_lat] max_lon].
    rewrite Hi. reflexivity. }
  split; [exact E|]. intros c. rewrite E. reflexivity.
Qed.

Lemma tile_draw_undecodable_png_witness :
  exists e,
    TileLayer.draw Cases.no_png_env Sample.tile = ([Save], throw e)
    /\ forall c, Cairo.exec (calls (TileLayer.draw Cases.no_png_env Sample.tile)) c
                 = Cairo.mkContext (Cairo.gstate c) (Cairo.gstate c :: Cairo.saved c).
Proof.
  apply (tile_draw_undecodable_png Cases.no_png_env Sample.tile). reflexivity.
Defined.

(** X21: a tile whose corners convert to the same x has the scale zero,
    which cairo refuses: [TileLayer.draw] raises after its [save()] and
    the decoding of the PNG, before any scaling or painting, and the saved
    state stays on the stack of the context. *)
Theorem tile_draw_zero_width_refused (env : Env) (self : TileLayer.t) (img : Image)
    (min_lat min_lon max_lat max_lon : Q) :
  let nw := Layer._convert_point (TileLayer.renderer self) (max_lat, min_lon) in
  let se := Layer._convert_point (TileLayer.renderer self) (min_lat, max_lon) in
  TileLatLonBounds env (TileLayer.tx self) (TileLayer.ty self) (TileLayer.tz self)
  = (min_lat, min_lon, max_lat, max_lon) ->
  create_from_png env (TileLayer.filename self) = Some img ->
  cx se == cx nw ->
  TileLayer.draw env self = ([Save], throw CairoError).
Proof.
  intros nw se Hb Hi Hw.
  assert (Ez : Float64.quot (Float64.sub (cx se) (cx nw)) 256 == 0).
  { unfold Float64.quot, Float64.sub.
    transitivity (Float64.round 0); [|reflexivity]. apply round_proper.
    assert (E : Float64.round (Float64.round (Float64.round (cx se) - Float64.round (cx nw)))
                == 0).
    { transitivity (Float64.round (Float64.round 0)); [|reflexivity].
      apply round_proper, round_proper. rewrite (round_proper _ _ Hw). ring. }
    rewrite E. reflexivity. }
  assert (Ea : Cairo.accepts_scale (Float64.quot (Float64.sub (cx se) (cx nw)) 256)
                 (Float64.quot (Float64.sub (cx se) (cx nw)) 256) = false).
  { unfold Cairo.accepts_scale, Float64.mul. apply negb_false_iff, Qeq_bool_iff.
    transitivity (Float64.round 0); [|reflexivity]. apply round_proper.
    rewrite (round_proper _ _ Ez). reflexivity. }
  unfold TileLayer.draw. rewrite Hb, Hi. fold nw se.
  rewrite bind_emit, bind_lift_ok, div_256, bind_lift_ok, Ea. reflexivity.
Qed.

Lemma tile_draw_zero_width_refused_witness :
  TileLayer.draw Cases.flat_tile_env Sample.tile = ([Save], throw CairoError).
Proof.
  apply (tile_draw_zero_width_refused Cases.flat_tile_env Sample.tile
           (mkImage "/tmp/tilecache/1_2_3.png" 256 256) 0 49 20 49);
    reflexivity.
Defined.

(** ** AreaLayer.draw *)

Lemma draw_area_ok_inv (self : AreaLayer.t) (area : Area) (tr : list call) :
  AreaLayer._draw_area self area = (tr, ok tt) ->
  path area <> []
  /\ tr = closed_polygon
            (rev (map (Layer._convert_point (AreaLayer.renderer self)) (path area))).
Proof.
  intros H.
  destruct (path area) as [|p ps] eqn:Ep.
  - unfold AreaLayer._draw_area in H. rewrite Ep in H. discriminate H.
  - split; [discriminate|].
    destruct (exists_last (l := map (Layer._convert_point (AreaLayer.renderer self)) (path area)))
      as (l & a & E).
    { rewrite Ep. discriminate. }
    rewrite (draw_area_snoc self area l a E) in H. injection H as <-.
    rewrite <- Ep, E, rev_app_distr. reflexivity.
Qed.

Lemma draw_area_nonempty_ok (self : AreaLayer.t) (area : Area) :
  path area <> [] ->
  AreaLayer._draw_area self area
  = (closed_polygon
       (rev (map (Layer._convert_point (AreaLayer.renderer self)) (path area))), ok tt).
Proof.
  intros Hp.
  destruct (exists_last (l := map (Layer._convert_point (AreaLayer.renderer self)) (path area)))
    as (l & a & E).
  { intros E. apply map_eq_nil in E. contradiction. }
  rewrite (draw_area_snoc self area l a E), E, rev_app_distr. reflexivity.
Qed.

Lemma for_each_all_ok {A : Type} (f : A -> M unit) (l : list A) :
  (forall a, In a l -> exists tr, f a = (tr, ok tt)) ->
  for_each f l = (List.concat (map (fun a => calls (f a)) l), ok tt).
Proof.
  induction l as [|a l IH]; intros H; [reflexivity|].
  cbn [for_each map List.concat].
  destruct (H a (or_introl eq_refl)) as (tr & Ea). rewrite Ea.
  rewrite IH by (intros b Hb; apply H; now right).
  reflexivity.
Qed.

Lemma for_each_ok_each {A : Type} (f : A -> M unit) (l : list A) (tr : list call) :
  for_each f l = (tr, ok tt) -> forall a, In a l -> exists tr', f a = (tr', ok tt).
Proof.
  revert tr. induction l as [|x l IH]; intros tr H a Hin; [contradiction|].
  cbn [for_each] in H. apply bind_ok in H.
  destruct H as (tr1 & [] & tr2 & E1 & E2 & ->).
  destruct Hin as [<- | Hin]; [eauto | eapply IH; eauto].
Qed.

(** X12: [AreaLayer.draw] completes exactly when no area has an empty
    path and the border colour has at least 4 components. *)
Theorem area_draw_completes_iff (self : AreaLayer.t) :
  (exists tr, AreaLayer.draw self = (tr, ok tt))
  <-> ((forall a, In a (AreaLayer.areas self) -> path a <> [])
       /\ (4 <= List.length (area_border_color (get_style (AreaLayer.renderer self))))%nat).
Proof.
  unfold AreaLayer.draw. rewrite !bind_emit. split.
  - intros (tr & H). injection H as _ Ho.
    destruct (for_each (AreaLayer._draw_area self) (AreaLayer.areas self))
      as [tra [e | []]] eqn:Ef; [discriminate Ho|].
    split.
    + intros a Hin. destruct (for_each_ok_each _ _ _ Ef a Hin) as (tr' & Ea).
      now apply draw_area_ok_inv in Ea.
    + unfold bind, outcome in Ho. cbn [snd] in Ho.
      destruct (area_border_color _) as [|r [|g [|b [|a l]]]]; try discriminate Ho.
      simpl. lia.
  - intros (Hp & Hc).
    rewrite for_each_all_ok
      by (intros a Hin; eexists; apply draw_area_nonempty_ok, Hp, Hin).
    destruct (area_border_color _) as [|r [|g [|b [|a l]]]]; simpl in Hc; try lia.
    eexists. reflexivity.
Qed.

Lemma points_app (tr1 tr2 : list call) (c : Cairo.Context) :
  Cairo.points (tr1 ++ tr2) c
  = Cairo.points tr1 c ++ Cairo.points tr2 (Cairo.exec tr1 c).
Proof.
  revert c. induction tr1 as [|k tr1 IH]; intros c; [reflexivity|].
  cbn [app Cairo.points]. rewrite IH, <- app_assoc. reflexivity.
Qed.

Lemma exec_line_to (pts : list Coord) (c : Cairo.Context) :
  Cairo.exec (map line_to pts) c = c.
Proof. induction pts as [|p pts IH]; [reflexivity | exact IH]. Qed.

Lemma points_line_to (pts : list Coord) (c : Cairo.Context) :
  Cairo.points (map line_to pts) c
  = map (fun p => Cairo.to_device (Cairo.ctm (Cairo.gstate c)) (xy p)) pts.
Proof.
  induction pts as [|p pts IH]; [reflexivity|].
  cbn [map Cairo.points line_to app]. f_equal. exact IH.
Qed.

Lemma exec_closed_polygon (pts : list Coord) (c : Cairo.Context) :
  Cairo.exec (closed_polygon pts) c = c.
Proof.
  destruct pts as [|p pts]; [reflexivity|].
  unfold closed_polygon.
  change (MoveTo (cx p) (cy p) :: map line_to pts ++ [ClosePath])
    with ([MoveTo (cx p) (cy p)] ++ map line_to pts ++ [ClosePath]).
  rewrite !exec_app, exec_line_to. reflexivity.
Qed.

Lemma points_closed_polygon (pts : list Coord) (c : Cairo.Context) :
  Cairo.points (closed_polygon pts) c
  = map (fun p => Cairo.to_device (Cairo.ctm (Cairo.gstate c)) (xy p)) pts.
Proof.
  destruct pts as [|p pts]; [reflexivity|].
  unfold closed_polygon. cbn [Cairo.points app map]. f_equal.
  rewrite points_app, points_line_to. cbn [Cairo.step Cairo.points].
  now rewrite app_nil_r.
Qed.

Lemma exec_polygons (l : list (list Coord)) (c : Cairo.Context) :
  Cairo.exec (List.concat (map closed_polygon l)) c = c.
Proof.
  induction l as [|pts l IH]; [reflexivity|].
  cbn [map List.concat]. now rewrite exec_app, exec_closed_polygon.
Qed.

Lemma points_polygons (l : list (list Coord)) (c : Cairo.Context) :
  Cairo.points (List.concat (map closed_polygon l)) c
  = map (fun p => Cairo.to_device (Cairo.ctm (Cairo.gstate c)) (xy p)) (List.concat l).
Proof.
  induction l as [|pts l IH]; [reflexivity|].
  cbn [map List.concat].
  rewrite points_app, exec_closed_polygon, points_closed_polygon, IH, map_app.
  reflexivity.
Qed.

(** The calls of an [AreaLayer.draw] that has completed. *)
Lemma area_draw_ok_calls (self : AreaLayer.t) (tr : list call) :
  AreaLayer.draw self = (tr, ok tt) ->
  let style := get_style (AreaLayer.renderer self) in
  let zoom := get_zoom (AreaLayer.renderer self) in
  let polygon a :=
    rev (map (Layer._convert_point (AreaLayer.renderer self)) (path a)) in
  exists r g b a rest,
    area_border_color style = r :: g :: b :: a :: rest
    /\ tr = Save :: Scale zoom zoom
              :: List.concat (map closed_polygon (map polygon (AreaLayer.areas self)))
              ++ [SetSourceRgba r g b a; SetLineWidth (area_border_width style);
                  Stroke; Restore].
Proof.
  intros H style zoom polygon.
  assert (Hc : exists tr', AreaLayer.draw self = (tr', ok tt)) by eauto.
  apply area_draw_completes_iff in Hc. destruct Hc as (Hp & Hc).
  unfold AreaLayer.draw in H. rewrite !bind_emit in H.
  rewrite for_each_all_ok in H
    by (intros a Hin; eexists; apply draw_area_nonempty_ok, Hp, Hin).
  fold style in H, Hc.
  destruct (area_border_color style) as [|r [|g [|b [|a l]]]]; simpl in Hc; try lia.
  injection H as <-. exists r, g, b, a, l. split; [reflexivity|]. fold zoom.
  do 2 f_equal. unfold bind, calls, lift, getitem, emit, ok. cbn.
  f_equal. rewrite map_map. apply f_equal, map_ext_in.
  intros x Hin. now rewrite (draw_area_nonempty_ok self x (Hp x Hin)).
Qed.

(** X13: a completed [AreaLayer.draw] has made exactly these calls:
    [save()], the scale by the zoom of the style, one closed polygon per
    area in order, each path taken from its last point to its first, then
    the colour (the first four components of 'area_border_color') and the
    line width, one [stroke()] for all polygons, and [restore()].  The
    points of the polygons are thereby placed under the transform of the
    context scaled by the zoom. *)
Theorem area_draw_points_scaled_by_zoom (self : AreaLayer.t) (tr : list call)
    (c : Cairo.Context) :
  AreaLayer.draw self = (tr, ok tt) ->
  let style := get_style (AreaLayer.renderer self) in
  let zoom := get_zoom (AreaLayer.renderer self) in
  let polygon a :=
    rev (map (Layer._convert_point (AreaLayer.renderer self)) (path a)) in
  exists r g b a rest,
    area_border_color style = r :: g :: b :: a :: rest
    /\ tr = Save :: Scale zoom zoom
              :: List.concat (map closed_polygon (map polygon (AreaLayer.areas self)))
              ++ [SetSourceRgba r g b a; SetLineWidth (area_border_width style);
                  Stroke; Restore]
    /\ Cairo.points tr c
       = map (fun p =>
                Cairo.to_device (Cairo.scale zoom zoom (Cairo.ctm (Cairo.gstate c))) (xy p))
           (List.concat (map polygon (AreaLayer.areas self))).
Proof.
  intros H style zoom polygon.
  destruct (area_draw_ok_calls self tr H) as (r & g & b & a & rest & Ec & ->).
  fold style zoom polygon in Ec |- *.
  exists r, g, b, a, rest. split; [exact Ec|]. split; [reflexivity|].
  cbn [Cairo.points app]. rewrite points_app, points_polygons, exec_polygons.
  cbn [Cairo.points Cairo.step app]. now rewrite app_nil_r.
Qed.

Lemma area_draw_points_scaled_by_zoom_witness :
  let tr := calls (AreaLayer.draw (AreaLayer.mk Sample.renderer [Sample.square])) in
  exists r g b a rest,
    area_border_color Sample.style = r :: g :: b :: a :: rest
    /\ tr = Save :: Scale (1 # 2) (1 # 2)
              :: List.concat
                   (map closed_polygon
                      [[mkCoord 0 0; mkCoord 256 0; mkCoord 256 256; mkCoord 0 256]])
              ++ [SetSourceRgba r g b a; SetLineWidth 2; Stroke; Restore]
    /\ Cairo.points tr Cairo.initial
       = map (fun p =>
                Cairo.to_device
                  (Cairo.scale (1 # 2) (1 # 2) (Cairo.ctm (Cairo.gstate Cairo.initial)))
                  (xy p))
           (List.concat [[mkCoord 0 0; mkCoord 256 0; mkCoord 256 256; mkCoord 0 256]]).
Proof.
  apply (area_draw_points_scaled_by_zoom (AreaLayer.mk Sample.renderer [Sample.square])
           _ Cairo.initial).
  reflexivity.
Defined.

Lemma to_device_scale (z : Q) (mt : Cairo.Matrix) (p : Q * Q) :
  fst (Cairo.to_device (Cairo.scale z z mt) p) == Cairo.xx mt * (z * fst p) + Cairo.x0 mt
  /\ snd (Cairo.to_device (Cairo.scale z z mt) p) == Cairo.yy mt * (z * snd p) + Cairo.y0 mt.
Proof.
  unfold Cairo.to_device, Cairo.scale. cbn [fst snd Cairo.xx Cairo.yy Cairo.x0 Cairo.y0].
  rewrite !Qred_correct. split; ring.
Qed.

(** ** QRCodeLayer.draw and CopyrightLayer.draw *)

Lemma anchor_ok (W mg : Q) (extent : Z) (rest rest' : list num) (i : nat) :
  nth_error rest i = Some (Some W) ->
  nth_error rest' i = Some (Some mg) ->
  exists v,
    QRCodeLayer.anchor (3 # 10) (StyleParser.PxList rest) (StyleParser.PxList rest') i extent
    = ok v
    /\ v + inject_Z extent == inject_Z (int (W / (3 # 10))) - mg.
Proof.
  intros HW Hm. unfold QRCodeLayer.anchor, StyleParser.item, getitem.
  rewrite HW, Hm. cbn [div Qeq_bool rbind ok as_num].
  change (Qeq_bool (3 # 10) 0) with false. cbv iota. cbn [rbind ok].
  eexists. split; [reflexivity|].
  unfold sub. rewrite !Qred_correct.
  rewrite (int_Qeq (mul (Qred (1 / (3 # 10))) W) (W / (3 # 10))).
  - ring.
  - unfold mul. rewrite !Qred_correct. field.
Qed.

Lemma scaled_edge (W mg v : Q) (extent : Z) :
  0 <= W ->
  v + inject_Z extent == inject_Z (int (W / (3 # 10))) - mg ->
  let edge := (3 # 10) * (v + inject_Z extent) in
  W - (3 # 10) * mg - (3 # 10) < edge /\ edge <= W - (3 # 10) * mg.
Proof.
  intros HW E edge. unfold edge. rewrite E.
  destruct (int_truncation (W / (3 # 10))) as [Hp _].
  assert (Hq : 0 <= W / (3 # 10)).
  { unfold Qdiv. apply Qmult_le_0_compat; [exact HW | discriminate]. }
  destruct (Hp Hq) as [H1 H2].
  assert (Ew : W == (3 # 10) * (W / (3 # 10))) by (field).
  split; lra.
Qed.





(** ** MapnikRenderer._get_sizes at the edges *)

(** X5: with a projected bounding box of height zero, [_get_sizes]
    raises [ZeroDivisionError] when the orientation is 'auto' and is
    unaffected otherwise: the ratio is only computed for 'auto'. *)
Theorem get_sizes_divides_only_for_auto (env : Env) (style : Style) :
  merc_bbox_height env == 0 ->
  (orientation style = Some "auto"%string ->
   MapnikRenderer._get_sizes env style = throw ZeroDivisionError)
  /\ (orientation style <> Some "auto"%string ->
      MapnikRenderer._get_sizes env style
      = ok (StyleParser.get_px style (StyleParser.Values (paper_size style)),
            StyleParser.get_px style (StyleParser.Values (map_size style)))).
Proof.
  intros Hh. unfold MapnikRenderer._get_sizes. split.
  - intros Ho. rewrite Ho. cbn [String.eqb Ascii.eqb Bool.eqb].
    rewrite (div_zero _ _ Hh). reflexivity.
  - intros Ho. destruct (orientation style) as [o|]; [|reflexivity].
    destruct (String.eqb o "auto") eqn:E; [|reflexivity].
    apply String.eqb_eq in E. subst o. now destruct Ho.
Qed.

Lemma get_sizes_divides_only_for_auto_witness :
  MapnikRenderer._get_sizes Cases.flat_bbox_env Sample.auto_style = throw ZeroDivisionError
  /\ MapnikRenderer._get_sizes Cases.flat_bbox_env Sample.style
     = ok (StyleParser.PxList [Some 800; Some 600], StyleParser.PxList [Some 600; Some 400]).
Proof.
  destruct (get_sizes_divides_only_for_auto Cases.flat_bbox_env Sample.auto_style) as [H _];
    [reflexivity|].
  destruct (get_sizes_divides_only_for_auto Cases.flat_bbox_env Sample.style) as [_ H'];
    [reflexivity|].
  split; [apply H; reflexivity | apply H'; discriminate].
Defined.

Lemma tile_init_other_count_witness :
  TileLayer.__init__ Sample.renderer "/tmp/tilecache/tile.png"
  = ok (TileLayer.mk Sample.renderer "/tmp/tilecache/tile.png" 0 0 0).
Proof.
  apply (tile_init_other_count Sample.renderer "/tmp/tilecache/tile.png").
  discriminate.
Defined.
